(** * IntensitySegments: a shallow embedding of [src/IntensitySegments.js]

    The class keeps one field, [this.segments], a JavaScript [Map] from
    numbers to numbers, and offers three methods: [add], [set] and
    [toString].  The map is modelled as a [gmap Z Z]; the methods are
    computations in a small state-and-exception monad that also counts the
    calls made to the [Map]'s primitives.

    JavaScript numbers are IEEE-754 doubles.  The numbers this class handles
    are integers; they are modelled as elements of [Z], and the two
    arithmetic operations the code performs on them, [i++] and [+], round
    their exact result to the nearest double ([round_double]): they are exact
    on the safe integers (magnitude at most 2^53 - 1) and round beyond.  A
    loop whose counter [i++] can no longer advance never exits, which is an
    outcome of its own ([Diverges]).  Three things lie outside the model: the
    sign of zero, which the class never shows; sums whose magnitude reaches
    2^1024, where a double becomes [Infinity]; and the way a template
    literal prints an integer beyond 2^53 (shortest digits, exponent form
    from 1e21 on), so a theorem that fixes the digits printed assumes safe
    integers. *)

From Stdlib Require Import ZArith Ascii String List Lia.
From stdpp Require Import gmap strings list sorting pretty.

Open Scope Z_scope.

Module IntensitySegments.

(** ** Values handed to [add] and [set] as range bounds

    [Number.isInteger] is the only thing the code asks of a bound before it
    compares it, so a bound is either an integer or something for which
    [Number.isInteger] answers [false] (a fraction, [NaN], an infinity, a
    value that is not a number at all). *)
Inductive value : Type :=
  | Int (z : Z)
  | NonInt.

Definition isInteger (v : value) : bool :=
  match v with
  | Int _ => true
  | NonInt => false
  end.

(** ** Exceptions and completions *)
Inductive exn : Type :=
  | Error (message : string).

Definition InvalidRange : exn :=
  Error "Invalid range: 'from' must be <= 'to' and both must be integers.".

(** How a piece of code ends: it completes normally, it throws, or it never
    returns. *)
Inductive completion (A : Type) : Type :=
  | Normal (a : A)
  | Throw (e : exn)
  | Diverges.
Arguments Normal {A} a.
Arguments Throw {A} e.
Arguments Diverges {A}.

(** What running a method yields: how it completed, the content of
    [this.segments] (the store) it leaves behind, and the number of [Map]
    primitives it called.  For a run that never returns, the last two
    describe the run up to the point where the model stops following it. *)
Record result (A : Type) : Type := Result {
  outcome : completion A;
  segments : gmap Z Z;
  cost : nat
}.
Arguments Result {A} outcome segments cost.
Arguments outcome {A} r.
Arguments segments {A} r.
Arguments cost {A} r.

Definition M (A : Type) : Type := gmap Z Z → result A.

Definition ret {A} (a : A) : M A := λ s, Result (Normal a) s 0.

Definition throw {A} (e : exn) : M A := λ s, Result (Throw e) s 0.

Definition diverge {A} : M A := λ s, Result Diverges s 0.

Definition bind {A B} (c : M A) (k : A → M B) : M B := λ s,
  let r := c s in
  match outcome r with
  | Normal a =>
      let r' := k a (segments r) in
      Result (outcome r') (segments r') (cost r + cost r')
  | Throw e => Result (Throw e) (segments r) (cost r)
  | Diverges => Result Diverges (segments r) (cost r)
  end.

Notation "'let!' x ':=' c 'in' k" := (bind c (λ x, k))
  (at level 10, x name, c at level 100, k at level 200, only parsing).

(** *** The primitives of [Map] the class uses *)

(** [this.segments.get(i)]: [None] stands for [undefined]. *)
Definition map_get (i : Z) : M (option Z) := λ s, Result (Normal (s !! i)) s 1.

(** [this.segments.set(i, v)] *)
Definition map_set (i v : Z) : M unit := λ s, Result (Normal tt) (<[i:=v]> s) 1.

(** [Array.from(this.segments.keys())].  A [Map] hands out its keys in
    insertion order and a [gmap] in an order of its own; the one use of the
    array sorts it, and the keys of a map are distinct, so the order they
    arrive in does not show (see [sort_ascending_order_irrelevant]). *)
Definition map_keys : M (list Z) := λ s, Result (Normal (map_to_list s).*1) s 1.

(** [x || 0] on the result of [get]: [undefined] and [0] are the falsy
    cases. *)
Definition or_zero (x : option Z) : Z :=
  match x with
  | Some v => if v =? 0 then 0 else v
  | None => 0
  end.

(** *** Arithmetic on doubles that hold integers *)

(** The double nearest to the integer [z], ties going to the double whose
    significand is even.  Integers of magnitude up to 2^53 are doubles;
    beyond, only the 53 leading bits are kept.  (Meant for magnitudes below
    2^1024.) *)
Definition round_double (z : Z) : Z :=
  let a := Z.abs z in
  if a <=? 9007199254740992 then z
  else
    let sh := Z.log2 a - 52 in
    let q := Z.shiftr a sh in
    let r := a - Z.shiftl q sh in
    let half := 2 ^ (sh - 1) in
    let q' := if (half <? r) || ((r =? half) && Z.odd q) then q + 1 else q in
    Z.sgn z * Z.shiftl q' sh.

(** [a + b] *)
Definition js_add (a b : Z) : Z := round_double (a + b).

(** The value [i++] leaves in [i]. *)
Definition incr (i : Z) : Z := js_add i 1.

(** *** Loops *)

(** Runs [body] on each element in turn; an exception ends the loop. *)
Fixpoint for_each (l : list Z) (body : Z → M unit) : M unit :=
  match l with
  | [] => ret tt
  | i :: l' => let! _ := body i in for_each l' body
  end.

(** [for (; i <= to; i++) body], followed for [fuel] iterations: the test
    [i <= to] is made before each iteration and [i++] after it.  A loop in
    which the test still holds when the fuel is spent is reported as never
    returning. *)
Fixpoint for_loop (fuel : nat) (i to : Z) (body : Z → M unit) : M unit :=
  if i <=? to then
    match fuel with
    | O => diverge
    | S fuel' => let! _ := body i in for_loop fuel' (incr i) to body
    end
  else ret tt.

(** [for (let i = from; i <= to; i++) body].  The body neither assigns [i]
    nor [to].  The loop is followed for [to - from + 1] iterations: an
    iteration in which [i++] advances [i] raises it by at least 1, so a loop
    in which the test holds after that many iterations has gone through an
    iteration in which [i++] left [i] where it was (see
    [for_loop_Diverges]), and from there on it repeats that iteration for
    ever (see [for_loop_stuck]).  On the safe integers [i++] always
    advances and the loop exits (see [for_loop_run]). *)
Definition for_range (from to : Z) (body : Z → M unit) : M unit :=
  for_loop (Z.to_nat (to - from + 1)) from to body.

(** [Array.prototype.map] with a callback that reads the store. *)
Fixpoint array_map {A} (f : Z → M A) (l : list Z) : M (list A) :=
  match l with
  | [] => ret []
  | x :: l' => let! y := f x in let! ys := array_map f l' in ret (y :: ys)
  end.

(** ** The methods *)

(** [add(from, to, amount)].  The guard
    [!Number.isInteger(from) || !Number.isInteger(to) || from > to]
    short-circuits, so [from > to] is only ever evaluated on two integers. *)
Definition add (from to : value) (amount : Z) : M unit :=
  match from, to with
  | Int from, Int to =>
      if from >? to then throw InvalidRange
      else
        for_range from to (λ i,
          let! v := map_get i in
          map_set i (js_add (or_zero v) amount))
  | _, _ => throw InvalidRange
  end.

(** [set(from, to, amount)] *)
Definition set (from to : value) (amount : Z) : M unit :=
  match from, to with
  | Int from, Int to =>
      if from >? to then throw InvalidRange
      else for_range from to (λ i, map_set i amount)
  | _, _ => throw InvalidRange
  end.

(** [sort((a, b) => a - b)]: ascending numeric order. *)
Definition sort_ascending (keys : list Z) : list Z := merge_sort Z.le keys.

(** What a template literal prints for the result of [get]: for an integer
    of magnitude up to 2^53, its decimal digits, with a sign if negative. *)
Definition show_value (v : option Z) : string :=
  match v with
  | Some n => pretty n
  | None => "undefined"
  end.

(** [`${key}: ${this.segments.get(key)}`] *)
Definition show_entry (key : Z) (v : option Z) : string :=
  pretty key +:+ ": " +:+ show_value v.

(** [toString()] *)
Definition toString : M string :=
  let! keys := map_keys in
  let sortedKeys := sort_ascending keys in
  let! parts :=
    array_map (λ key, let! v := map_get key in ret (show_entry key v))
              sortedKeys in
  ret (String.concat ", " parts).

(** [new IntensitySegments()] *)
Definition new : gmap Z Z := ∅.

(** ** Observations

    The class has no point query; what a point holds is what [add] itself
    reads back, [this.segments.get(p) || 0]. *)
Definition intensity (m : gmap Z Z) (p : Z) : Z := or_zero (m !! p).

(** The keys in the order [toString] walks them. *)
Definition sortedKeys (m : gmap Z Z) : list Z :=
  sort_ascending (map_to_list m).*1.

(** The (key, value) pairs [toString] formats, in its order. *)
Definition entries (m : gmap Z Z) : list (Z * Z) :=
  omap (λ key, pair key <$> m !! key) (sortedKeys m).

(** ["<key>: <value>"] *)
Definition show_pair (e : Z * Z) : string :=
  pretty e.1 +:+ ": " +:+ pretty e.2.

(** The rendered sequence read as the breakpoints of a step function, the
    way the specification's data model reads it: the value at [p] is the
    value of the last entry whose key is at most [p], and [0] when there is
    none. *)
Definition step_value (m : gmap Z Z) (p : Z) : Z :=
  foldl (λ acc e, if bool_decide (e.1 ≤ p) then e.2 else acc) 0 (entries m).

(** ** Sequences of calls *)
Inductive call : Type :=
  | CallAdd (from to : value) (amount : Z)
  | CallSet (from to : value) (amount : Z).

Definition perform (c : call) : M unit :=
  match c with
  | CallAdd from to amount => add from to amount
  | CallSet from to amount => set from to amount
  end.

(** Calls made one after the other on the same object. *)
Fixpoint perform_all (cs : list call) : M unit :=
  match cs with
  | [] => ret tt
  | c :: cs' => let! _ := perform c in perform_all cs'
  end.

(** A call whose bounds are integers with [from <= to]. *)
Definition valid (c : call) : bool :=
  match c with
  | CallAdd (Int from) (Int to) _ | CallSet (Int from) (Int to) _ =>
      bool_decide (from ≤ to)
  | _ => false
  end.

(** The range a call names, when its bounds are integers. *)
Definition bounds (c : call) : option (Z * Z) :=
  match c with
  | CallAdd (Int from) (Int to) _ | CallSet (Int from) (Int to) _ =>
      Some (from, to)
  | _ => None
  end.

(** One iteration of [add]'s loop and of [set]'s, as functions on the store. *)
Definition add_point (amount : Z) (m : gmap Z Z) (i : Z) : gmap Z Z :=
  <[i := js_add (or_zero (m !! i)) amount]> m.

Definition set_point (amount : Z) (m : gmap Z Z) (i : Z) : gmap Z Z :=
  <[i := amount]> m.

(** ** Statements of the specification that the code is checked against *)

(** The guard's third disjunct, [from > to], as the code reaches it: on two
    integers. *)
Definition gt_reached (from to : value) : Prop :=
  ∃ f t : Z, from = Int f ∧ to = Int t ∧ f > t.

(** [from > to], or [from] or [to] is not an integer. *)
Definition invalid_range (from to : value) : Prop :=
  isInteger from = false ∨ isInteger to = false ∨ gt_reached from to.

(** [add] read over the half-open range [[from, to)], for a given way of
    reading the value at a point off the store. *)
Definition add_half_open (value_at : gmap Z Z → Z → Z) : Prop :=
  ∀ (m : gmap Z Z) (from to amount : Z),
    from ≤ to →
    let m' := segments (add (Int from) (Int to) amount m) in
    (∀ p, from ≤ p < to → value_at m' p = value_at m p + amount) ∧
    (∀ p, ¬ (from ≤ p < to) → value_at m' p = value_at m p).

(** [set] read over the half-open range [[from, to)]. *)
Definition set_half_open (value_at : gmap Z Z → Z → Z) : Prop :=
  ∀ (m : gmap Z Z) (from to amount : Z),
    from ≤ to →
    let m' := segments (set (Int from) (Int to) amount m) in
    (∀ p, from ≤ p < to → value_at m' p = amount) ∧
    (∀ p, ¬ (from ≤ p < to) → value_at m' p = value_at m p).

(** Canonical form of a rendered sequence: no entry's value equals the value
    of the entry before it, the value before the first entry being [prev]. *)
Fixpoint canonical_from (prev : Z) (l : list (Z * Z)) : bool :=
  match l with
  | [] => true
  | e :: l' => negb (e.2 =? prev) && canonical_from e.2 l'
  end.

Definition canonical (l : list (Z * Z)) : bool := canonical_from 0 l.

(** Every sequence of valid calls on a fresh object leaves a canonical
    rendering. *)
Definition always_canonical : Prop :=
  ∀ cs : list call,
    Forall (λ c, valid c = true) cs →
    canonical (entries (segments (perform_all cs new))) = true.

(** [add(a, b, 0)] never changes what [toString] returns. *)
Definition add_zero_keeps_toString : Prop :=
  ∀ (m : gmap Z Z) (a b : Z),
    a ≤ b →
    outcome (toString (segments (add (Int a) (Int b) 0 m))) =
    outcome (toString m).


(** [add(a, b, x)] then [add(a, b, y)] always leaves every point with the
    value that [add(a, b, x + y)] leaves there. *)
Definition add_always_additive : Prop :=
  ∀ (m : gmap Z Z) (a b x y p : Z),
    a ≤ b →
    intensity
      (segments ((let! _ := add (Int a) (Int b) x in add (Int a) (Int b) y) m))
      p =
    intensity (segments (add (Int a) (Int b) (x + y) m)) p.

(** A valid [add] or [set] always leaves every integer of [[from, to]]
    among the stored keys. *)
Definition range_always_stored : Prop :=
  ∀ (m : gmap Z Z) (from to amount k : Z),
    from ≤ to →
    from ≤ k ≤ to →
    is_Some (segments (add (Int from) (Int to) amount m) !! k) ∧
    is_Some (segments (set (Int from) (Int to) amount m) !! k).

(** The number of occurrences of [":"] in a string. *)
Fixpoint count_colon (s : string) : nat :=
  match s with
  | EmptyString => 0
  | String a s' =>
      ((if Ascii.eqb a ":"%char then 1 else 0) + count_colon s')%nat
  end.

(** ** Further notions used to describe how calls compose *)

(** What a call's loop body stores at a point whose entry was [old]:
    [(old || 0) + amount] for [add], [amount] for [set]. *)
Definition written (c : call) (old : option Z) : Z :=
  match c with
  | CallAdd _ _ amount => js_add (or_zero old) amount
  | CallSet _ _ amount => amount
  end.

(** ** The safe integers

    [Number.MAX_SAFE_INTEGER], 2^53 - 1. *)
Definition MAX_SAFE_INTEGER : Z := 9007199254740991.

(** [Number.isSafeInteger]: on these [i++] and sums that stay among them
    are exact, and a template literal prints all the digits. *)
Definition safe (z : Z) : Prop := - MAX_SAFE_INTEGER ≤ z ≤ MAX_SAFE_INTEGER.

(** A call whose two bounds are safe integers. *)
Definition safe_call (c : call) : bool :=
  match bounds c with
  | Some (from, to) =>
      bool_decide (- MAX_SAFE_INTEGER ≤ from ≤ MAX_SAFE_INTEGER) &&
      bool_decide (- MAX_SAFE_INTEGER ≤ to ≤ MAX_SAFE_INTEGER)
  | None => false
  end.

(** [add(a, b, x)] rounds nothing on the store [m]: at every point of
    [[a, b]] the sum of what the point holds and [x] is a safe integer. *)
Definition exact_add (m : gmap Z Z) (a b x : Z) : Prop :=
  ∀ p, a ≤ p ≤ b → safe (intensity m p + x).


(** The characters that separate the parts of what [toString] returns:
    those of [": "] and [", "]. *)
Definition is_delim (a : ascii) : bool :=
  Ascii.eqb a ":"%char || Ascii.eqb a ","%char || Ascii.eqb a " "%char.

(** A string with no separator character in it. *)
Fixpoint no_delim (s : string) : bool :=
  match s with
  | EmptyString => true
  | String a s' => negb (is_delim a) && no_delim s'
  end.

(** A string that is empty or starts with a separator character. *)
Definition starts_delim (s : string) : bool :=
  match s with
  | EmptyString => true
  | String a _ => is_delim a
  end.

End IntensitySegments.

Import IntensitySegments.

(** * Arithmetic *)

Ltac safe_lia := unfold safe, MAX_SAFE_INTEGER in *; lia.

Lemma round_double_exact (z : Z) :
  -9007199254740992 ≤ z ≤ 9007199254740992 → round_double z = z.
Proof.
  intros Hz. unfold round_double.
  destruct (Z.abs z <=? 9007199254740992) eqn:E; [done|].
  apply Z.leb_gt in E. lia.
Qed.

Lemma js_add_exact (a b : Z) : safe (a + b) → js_add a b = a + b.
Proof. intros H. apply round_double_exact. safe_lia. Qed.

Lemma incr_exact (i : Z) : safe i → incr i = i + 1.
Proof. intros H. apply round_double_exact. safe_lia. Qed.

(** The behaviour of [i++] and [+] at the edge of the safe integers:
    from 2^53 on [i++] no longer advances, below -2^53 it skips an integer,
    and sums are rounded. *)
Example incr_stuck_at_2_53 : incr 9007199254740992 = 9007199254740992.
Proof. reflexivity. Qed.

Example incr_last_safe : incr 9007199254740991 = 9007199254740992.
Proof. reflexivity. Qed.

Example incr_skips_below : incr (-9007199254740994) = -9007199254740992.
Proof. reflexivity. Qed.

Example incr_stuck_below : incr (-9007199254740996) = -9007199254740996.
Proof. reflexivity. Qed.

Example round_double_values :
  round_double 9007199254740993 = 9007199254740992 ∧
  round_double 9007199254740995 = 9007199254740996 ∧
  round_double 18014398509481983 = 18014398509481984 ∧
  round_double (-9007199254740993) = -9007199254740992 ∧
  round_double (10 ^ 21) = 10 ^ 21 ∧
  round_double (10 ^ 21 + 1) = 10 ^ 21.
Proof. repeat split; reflexivity. Qed.

Example js_add_rounds :
  js_add 9007199254740992 1 = 9007199254740992 ∧
  js_add 9007199254740992 2 = 9007199254740994 ∧
  js_add 9007199254740994 1 = 9007199254740996 ∧
  js_add (js_add 1 9007199254740992) (-9007199254740992) = 0.
Proof. repeat split; reflexivity. Qed.

(** * Running the loops *)

Lemma bind_Normal {A B} (c : M A) (k : A → M B) s a s' n :
  c s = Result (Normal a) s' n →
  bind c k s =
  Result (outcome (k a s')) (segments (k a s')) (n + cost (k a s')).
Proof. intros H. unfold bind. by rewrite H. Qed.

(** On safe bounds [i++] always advances: the loop leaves through its test
    and has run the body on [i], [i + 1], ..., [to] in turn. *)
Lemma for_loop_run (fuel : nat) (i to : Z) (body : Z → M unit) :
  (Z.to_nat (to - i + 1) ≤ fuel)%nat →
  - MAX_SAFE_INTEGER ≤ i →
  to ≤ MAX_SAFE_INTEGER →
  for_loop fuel i to body = for_each (seqZ i (to - i + 1)) body.
Proof.
  revert i. induction fuel as [|fuel IH]; intros i Hfuel Hi Hto;
    cbn [for_loop]; destruct (i <=? to) eqn:Htest;
    try (apply Z.leb_gt in Htest; rewrite seqZ_nil by lia; done);
    apply Z.leb_le in Htest; [lia|].
  rewrite (seqZ_cons i) by lia. cbn [for_each].
  replace (Z.succ i) with (i + 1) by lia.
  replace (Z.pred (to - i + 1)) with (to - (i + 1) + 1) by lia.
  rewrite incr_exact by safe_lia.
  by rewrite IH by lia.
Qed.

(** Loops whose body stores something at [i] and completes, as the bodies
    of [add] and [set] do; no assumption on the bounds. *)
Section AnyBounds.
Variable body : Z → M unit.
Hypothesis body_inserts :
  ∀ i s, ∃ v n, body i s = Result (Normal tt) (<[i:=v]> s) n.

Lemma for_loop_keeps (fuel : nat) (i to : Z) (s : gmap Z Z) (k : Z) :
  is_Some (s !! k) → is_Some (segments (for_loop fuel i to body s) !! k).
Proof.
  revert i s. induction fuel as [|fuel IH]; intros i s Hk;
    cbn [for_loop]; destruct (i <=? to); try done.
  destruct (body_inserts i s) as (v & n & Hrun).
  rewrite (bind_Normal _ _ _ _ _ _ Hrun). cbn [segments].
  apply IH. rewrite lookup_insert. by case_decide.
Qed.

Lemma for_loop_not_Throw (fuel : nat) (i to : Z) (s : gmap Z Z) (e : exn) :
  outcome (for_loop fuel i to body s) ≠ Throw e.
Proof.
  revert i s. induction fuel as [|fuel IH]; intros i s;
    cbn [for_loop]; destruct (i <=? to); try done.
  destruct (body_inserts i s) as (v & n & Hrun).
  rewrite (bind_Normal _ _ _ _ _ _ Hrun). cbn [outcome]. apply IH.
Qed.

(** The first iteration always takes place. *)
Lemma for_range_first (from to : Z) (s : gmap Z Z) :
  from ≤ to → is_Some (segments (for_range from to body s) !! from).
Proof.
  intros Hle. unfold for_range.
  destruct (Z.to_nat (to - from + 1)) as [|fuel] eqn:Hfuel; [lia|].
  cbn [for_loop]. destruct (from <=? to) eqn:Htest;
    [|apply Z.leb_gt in Htest; lia].
  destruct (body_inserts from s) as (v & n & Hrun).
  rewrite (bind_Normal _ _ _ _ _ _ Hrun). cbn [segments].
  apply for_loop_keeps. by rewrite lookup_insert_eq.
Qed.

(** A loop reported as never returning has gone through an iteration in
    which [i++] did not advance [i]; the test [i <= to], true in that
    iteration, is then true in all that follow. *)
Lemma for_loop_Diverges (fuel : nat) (i to : Z) (s : gmap Z Z) :
  (Z.to_nat (to - i + 1) ≤ fuel)%nat →
  outcome (for_loop fuel i to body s) = Diverges →
  ∃ j, i ≤ j ≤ to ∧ incr j ≤ j.
Proof.
  revert i s. induction fuel as [|fuel IH]; intros i s Hfuel;
    cbn [for_loop]; destruct (i <=? to) eqn:Htest; try done;
    apply Z.leb_le in Htest; [lia|].
  destruct (body_inserts i s) as (v & n & Hrun).
  rewrite (bind_Normal _ _ _ _ _ _ Hrun). cbn [outcome]. intros Hdiv.
  destruct (decide (incr i ≤ i)) as [Hstuck|Hadv].
  - exists i. lia.
  - apply IH in Hdiv as (j & Hj & Hstuck); [|lia]. exists j. lia.
Qed.
(** Conversely, from an iteration in which [i++] does not advance [i] the
    loop never exits, however long it is followed. *)
Lemma for_loop_stuck (fuel : nat) (i to : Z) (s : gmap Z Z) :
  i ≤ to → incr i = i → outcome (for_loop fuel i to body s) = Diverges.
Proof.
  intros Hi Hstuck. revert s. induction fuel as [|fuel IH]; intros s;
    cbn [for_loop]; destruct (i <=? to) eqn:Htest;
    try (apply Z.leb_gt in Htest; lia); [done|].
  destruct (body_inserts i s) as (v & n & Hrun).
  rewrite (bind_Normal _ _ _ _ _ _ Hrun). cbn [outcome].
  rewrite Hstuck. apply IH.
Qed.
End AnyBounds.

Lemma add_body_inserts (amount i : Z) (s : gmap Z Z) :
  ∃ v n,
    (let! v := map_get i in map_set i (js_add (or_zero v) amount)) s =
    Result (Normal tt) (<[i:=v]> s) n.
Proof. by eexists _, _. Qed.

Lemma set_body_inserts (amount i : Z) (s : gmap Z Z) :
  ∃ v n, map_set i amount s = Result (Normal tt) (<[i:=v]> s) n.
Proof. by eexists _, _. Qed.

(** Loops whose body completes at a fixed cost. *)
Section Loops.
Variable body : Z → M unit.
Variable step : gmap Z Z → Z → gmap Z Z.
Variable c : nat.
Hypothesis body_run : ∀ i s, body i s = Result (Normal tt) (step s i) c.

Lemma for_each_run l s :
  for_each l body s = Result (Normal tt) (foldl step s l) (c * length l).
Proof.
  revert s. induction l as [|i l IH]; intros s; simpl.
  - unfold ret. f_equal. lia.
  - rewrite (bind_Normal _ _ _ _ _ _ (body_run i s)), IH. simpl.
    f_equal. lia.
Qed.

Lemma for_range_run from to s :
  safe from → safe to →
  for_range from to body s =
  Result (Normal tt) (foldl step s (seqZ from (to - from + 1)))
         (c * Z.to_nat (to - from + 1)).
Proof.
  intros Hfrom Hto. unfold for_range.
  rewrite for_loop_run by safe_lia.
  by rewrite for_each_run, length_seqZ.
Qed.

End Loops.

Lemma add_run from to amount m :
  safe from → safe to →
  from ≤ to →
  add (Int from) (Int to) amount m =
  Result (Normal tt) (foldl (add_point amount) m (seqZ from (to - from + 1)))
         (2 * Z.to_nat (to - from + 1)).
Proof.
  intros Hfrom Hto Hle. unfold add.
  destruct (from >? to) eqn:Hgt; [lia|].
  by apply for_range_run.
Qed.

Lemma set_run from to amount m :
  safe from → safe to →
  from ≤ to →
  set (Int from) (Int to) amount m =
  Result (Normal tt) (foldl (set_point amount) m (seqZ from (to - from + 1)))
         (1 * Z.to_nat (to - from + 1)).
Proof.
  intros Hfrom Hto Hle. unfold set.
  destruct (from >? to) eqn:Hgt; [lia|].
  by apply for_range_run.
Qed.

Lemma or_zero_default x : or_zero x = default 0 x.
Proof.
  destruct x as [v|]; simpl; [|done].
  destruct (v =? 0) eqn:E; [|done]. apply Z.eqb_eq in E. done.
Qed.

(** What the loops leave at a key. *)
Lemma foldl_add_point_lookup amount l m p :
  NoDup l →
  foldl (add_point amount) m l !! p =
  if decide (p ∈ l) then Some (js_add (or_zero (m !! p)) amount)
  else m !! p.
Proof.
  revert m. induction l as [|i l IH]; intros m Hnd; simpl.
  - by destruct (decide (p ∈ [])) as [H%elem_of_nil|].
  - apply NoDup_cons in Hnd as [Hi Hnd]. rewrite IH by done.
    unfold add_point.
    destruct (decide (p = i)) as [->|Hne].
    + rewrite (decide_False (P := i ∈ l)) by done.
      rewrite (decide_True (P := i ∈ i :: l)) by apply list_elem_of_here.
      by rewrite lookup_insert_eq.
    + rewrite lookup_insert_ne by done.
      destruct (decide (p ∈ l)) as [Hin|Hnin],
               (decide (p ∈ i :: l)) as [Hin'|Hnin']; try done.
      * exfalso. apply Hnin'. by apply list_elem_of_further.
      * apply elem_of_cons in Hin' as [?|?]; done.
Qed.

Lemma foldl_set_point_lookup amount l m p :
  foldl (set_point amount) m l !! p =
  if decide (p ∈ l) then Some amount else m !! p.
Proof.
  revert m. induction l as [|i l IH]; intros m; simpl.
  - by destruct (decide (p ∈ [])) as [H%elem_of_nil|].
  - rewrite IH. unfold set_point.
    destruct (decide (p = i)) as [->|Hne].
    + rewrite lookup_insert_eq.
      rewrite (decide_True (P := i ∈ i :: l)) by apply list_elem_of_here.
      by case_decide.
    + rewrite lookup_insert_ne by done.
      destruct (decide (p ∈ l)) as [Hin|Hnin],
               (decide (p ∈ i :: l)) as [Hin'|Hnin']; try done.
      * exfalso. apply Hnin'. by apply list_elem_of_further.
      * apply elem_of_cons in Hin' as [?|?]; done.
Qed.

Lemma elem_of_range from to p :
  p ∈ seqZ from (to - from + 1) ↔ from ≤ p ≤ to.
Proof. rewrite elem_of_seqZ. lia. Qed.

(** On safe bounds [add] reaches every point of the closed range, and
    leaves there the rounded sum. *)
Lemma add_lookup_rounded from to amount m p :
  safe from → safe to →
  from ≤ to →
  segments (add (Int from) (Int to) amount m) !! p =
  if decide (from ≤ p ≤ to) then Some (js_add (or_zero (m !! p)) amount)
  else m !! p.
Proof.
  intros Hfrom Hto Hle. rewrite add_run by done. simpl.
  rewrite foldl_add_point_lookup by apply NoDup_seqZ.
  pose proof (elem_of_range from to p). repeat case_decide; tauto.
Qed.

(** When moreover no sum leaves the safe integers, the sums are exact. *)
Lemma add_lookup from to amount m p :
  safe from → safe to →
  from ≤ to →
  exact_add m from to amount →
  segments (add (Int from) (Int to) amount m) !! p =
  if decide (from ≤ p ≤ to) then Some (or_zero (m !! p) + amount) else m !! p.
Proof.
  intros Hfrom Hto Hle Hexact. rewrite add_lookup_rounded by done.
  case_decide as Hp; [|done].
  by rewrite js_add_exact by apply (Hexact p Hp).
Qed.

Lemma set_lookup from to amount m p :
  safe from → safe to →
  from ≤ to →
  segments (set (Int from) (Int to) amount m) !! p =
  if decide (from ≤ p ≤ to) then Some amount else m !! p.
Proof.
  intros Hfrom Hto Hle. rewrite set_run by done. simpl.
  rewrite foldl_set_point_lookup.
  pose proof (elem_of_range from to p). repeat case_decide; tauto.
Qed.

(** * The keys and entries [toString] walks *)

(** Sorting yields the same array whatever order the keys were handed out
    in. *)
Lemma sort_ascending_order_irrelevant (keys keys' : list Z) :
  keys ≡ₚ keys' → sort_ascending keys = sort_ascending keys'.
Proof.
  intros Hperm. unfold sort_ascending.
  apply (Sorted_unique Z.le); try apply (Sorted_merge_sort Z.le).
  by rewrite !merge_sort_Permutation.
Qed.

Lemma sortedKeys_perm m : sortedKeys m ≡ₚ (map_to_list m).*1.
Proof. apply merge_sort_Permutation. Qed.

Lemma elem_of_sortedKeys m k : k ∈ sortedKeys m ↔ is_Some (m !! k).
Proof.
  rewrite sortedKeys_perm, list_elem_of_fmap. split.
  - intros [[k' v] [-> Hin]]. apply elem_of_map_to_list in Hin. by exists v.
  - intros [v Hv]. exists (k, v). split; [done|]. by apply elem_of_map_to_list.
Qed.

Lemma NoDup_sortedKeys m : NoDup (sortedKeys m).
Proof. rewrite sortedKeys_perm. apply NoDup_fst_map_to_list. Qed.

Lemma length_sortedKeys m : length (sortedKeys m) = size m.
Proof.
  rewrite sortedKeys_perm, length_fmap. apply length_map_to_list.
Qed.

(** A duplicate-free list in ascending order is in strictly ascending
    order. *)
Lemma StronglySorted_le_lt (l : list Z) :
  NoDup l → StronglySorted Z.le l → StronglySorted Z.lt l.
Proof.
  induction 2 as [|x l Hs IH Hall]; constructor.
  - apply IH. by eapply NoDup_cons_1_2.
  - apply NoDup_cons in H as [Hx _].
    apply Forall_forall. intros y Hy.
    pose proof (proj1 (Forall_forall _ _) Hall y Hy) as Hle.
    destruct (decide (x = y)) as [->|]; [done | lia].
Qed.

Lemma sortedKeys_strictly_ascending m : StronglySorted Z.lt (sortedKeys m).
Proof.
  apply StronglySorted_le_lt; [apply NoDup_sortedKeys|].
  apply (StronglySorted_merge_sort Z.le).
Qed.

(** Pairs are in strictly ascending key order when their keys are. *)
Lemma StronglySorted_keys (l : list (Z * Z)) :
  StronglySorted Z.lt l.*1 → StronglySorted (λ e1 e2 : Z * Z, e1.1 < e2.1) l.
Proof.
  induction l as [|e l IH]; intros Hs; [constructor|].
  rewrite fmap_cons in Hs. apply StronglySorted_inv in Hs as [Hs Hall].
  constructor; [by apply IH|].
  apply Forall_forall. intros e' He'.
  apply (proj1 (Forall_forall _ _) Hall). by apply list_elem_of_fmap_2.
Qed.

Section Entries.
Variable m : gmap Z Z.

Lemma omap_stored_keys (l : list Z) :
  Forall (λ k, is_Some (m !! k)) l →
  (omap (λ key, pair key <$> m !! key) l).*1 = l ∧
  show_pair <$> omap (λ key, pair key <$> m !! key) l =
    (λ key, show_entry key (m !! key)) <$> l.
Proof.
  induction 1 as [|k l [v Hv] _ [IH1 IH2]]; [done|].
  split; cbn [omap list_omap]; rewrite Hv; cbn [fmap option_fmap option_map];
    rewrite !fmap_cons.
  - f_equal. exact IH1.
  - rewrite Hv. f_equal. exact IH2.
Qed.

Lemma sortedKeys_stored : Forall (λ k, is_Some (m !! k)) (sortedKeys m).
Proof. apply Forall_forall. intros k. by rewrite elem_of_sortedKeys. Qed.

Lemma entries_keys : (entries m).*1 = sortedKeys m.
Proof. apply omap_stored_keys, sortedKeys_stored. Qed.

Lemma entries_show :
  show_pair <$> entries m = (λ key, show_entry key (m !! key)) <$> sortedKeys m.
Proof. apply omap_stored_keys, sortedKeys_stored. Qed.

Lemma elem_of_entries k v : (k, v) ∈ entries m ↔ m !! k = Some v.
Proof.
  unfold entries. rewrite list_elem_of_omap. split.
  - intros (k' & _ & Hk'). destruct (m !! k') as [v'|] eqn:E; [|done].
    simpl in Hk'. by simplify_eq.
  - intros Hv. exists k. split.
    + apply elem_of_sortedKeys. by exists v.
    + by rewrite Hv.
Qed.

Lemma length_entries : length (entries m) = size m.
Proof. by rewrite <- (length_fmap fst), entries_keys, length_sortedKeys. Qed.

Lemma entries_strictly_ascending :
  StronglySorted (λ e1 e2 : Z * Z, e1.1 < e2.1) (entries m).
Proof.
  apply StronglySorted_keys. rewrite entries_keys.
  apply sortedKeys_strictly_ascending.
Qed.
End Entries.

(** * Running [toString] *)

Lemma array_map_get_run {A} (f : Z → option Z → A) (l : list Z) (s : gmap Z Z) :
  array_map (λ key, let! v := map_get key in ret (f key v)) l s =
  Result (Normal ((λ key, f key (s !! key)) <$> l)) s (length l).
Proof.
  induction l as [|k l IH]; [done|].
  cbn [array_map].
  rewrite (bind_Normal _ _ s (f k (s !! k)) s 1) by done.
  rewrite (bind_Normal _ _ _ _ _ _ IH). cbn.
  by rewrite Nat.add_0_r.
Qed.

Lemma toString_run m :
  toString m =
  Result (Normal (String.concat ", " (show_pair <$> entries m))) m (S (size m)).
Proof.
  unfold toString.
  rewrite (bind_Normal _ _ m (map_to_list m).*1 m 1) by done.
  fold (sortedKeys m).
  rewrite (bind_Normal _ _ _ _ _ _ (array_map_get_run show_entry _ m)).
  simpl. by rewrite entries_show, length_sortedKeys, Nat.add_0_r.
Qed.

(** * Worked calls *)

Example add_1_5_10_renders :
  outcome (toString (segments (add (Int 1) (Int 5) 10 new))) =
  Normal "1: 10, 2: 10, 3: 10, 4: 10, 5: 10".
Proof. reflexivity. Qed.

(** The usage example of the class comment: [add(1, 5, 10)], then
    [set(3, 4, 5)]. *)
Example add_then_set_renders :
  outcome (toString (segments (perform_all
    [CallAdd (Int 1) (Int 5) 10; CallSet (Int 3) (Int 4) 5] new))) =
  Normal "1: 10, 2: 10, 3: 5, 4: 5, 5: 10".
Proof. reflexivity. Qed.

Example set_negative_renders :
  outcome (toString (segments (set (Int (-1)) (Int 1) (-7) new))) =
  Normal "-1: -7, 0: -7, 1: -7".
Proof. reflexivity. Qed.

Example add_5_1_throws :
  add (Int 5) (Int 1) 10 (segments (add (Int 1) (Int 5) 10 new)) =
  Result (Throw InvalidRange) (segments (add (Int 1) (Int 5) 10 new)) 0.
Proof. reflexivity. Qed.

Example set_non_integer_throws :
  set NonInt (Int 3) 1 new = Result (Throw InvalidRange) new 0.
Proof. reflexivity. Qed.

Example add_single_point :
  outcome (toString (segments (add (Int 4) (Int 4) 2 new))) = Normal "4: 2".
Proof. reflexivity. Qed.

(** At the edge of the safe integers.  [add(2^53, 2^53, 1)] never returns:
    [i++] leaves [i] at 2^53. *)
Example add_at_2_53_diverges :
  outcome (add (Int 9007199254740992) (Int 9007199254740992) 1 new) =
  Diverges.
Proof. reflexivity. Qed.

(** [add(-2^53 - 2, -2^53, 1)] returns after two iterations: [i++] goes
    from -2^53 - 2 straight to -2^53. *)
Example add_below_skips :
  add (Int (-9007199254740994)) (Int (-9007199254740992)) 1 new =
  Result (Normal tt)
         (<[-9007199254740992 := 1]> (<[-9007199254740994 := 1]> ∅)) 4.
Proof. reflexivity. Qed.

(** [set(1, 1, 2^53)] then [add(1, 1, 1)] leaves 2^53 at 1. *)
Example add_rounds_stored_value :
  segments (add (Int 1) (Int 1) 1
              (segments (set (Int 1) (Int 1) 9007199254740992 new))) !! 1 =
  Some 9007199254740992.
Proof. reflexivity. Qed.

(** * The effect of [add] and [set] on the points of the line *)

(** C1, as the code has it: a valid [add(from, to, amount)] whose bounds
    are safe integers completes normally, raises the value held at every
    integer point [p] with [from <= p <= to] (the bound [to] included) by
    [amount], provided these sums are safe integers, and leaves every point
    outside that closed range as it was. *)
Theorem add_closed_range_effect (m : gmap Z Z) (from to amount : Z) :
  safe from →
  safe to →
  from ≤ to →
  exact_add m from to amount →
  let r := add (Int from) (Int to) amount m in
  outcome r = Normal tt ∧
  (∀ p, from ≤ p ≤ to → intensity (segments r) p = intensity m p + amount) ∧
  (∀ p, ¬ (from ≤ p ≤ to) →
        segments r !! p = m !! p ∧ intensity (segments r) p = intensity m p).
Proof.
  intros Hfrom Hto Hle Hexact r. split; [|split].
  - subst r. by rewrite add_run.
  - intros p Hp. unfold intensity at 1. subst r.
    rewrite add_lookup, decide_True by done.
    by rewrite or_zero_default.
  - intros p Hp. unfold intensity. subst r.
    by rewrite add_lookup, decide_False by done.
Qed.

Lemma add_closed_range_effect_witness :
  safe 1 ∧ safe 5 ∧ 1 ≤ 5 ∧ exact_add new 1 5 10 ∧
  let r := add (Int 1) (Int 5) 10 new in
  outcome r = Normal tt ∧
  (∀ p, 1 ≤ p ≤ 5 → intensity (segments r) p = intensity new p + 10) ∧
  (∀ p, ¬ (1 ≤ p ≤ 5) →
        segments r !! p = new !! p ∧
        intensity (segments r) p = intensity new p).
Proof.
  assert (safe 1) as H1 by (unfold safe, MAX_SAFE_INTEGER; lia).
  assert (safe 5) as H5 by (unfold safe, MAX_SAFE_INTEGER; lia).
  assert (exact_add new 1 5 10) as Hexact
    by (intros p _; vm_compute; split; discriminate).
  split; [exact H1|]. split; [exact H5|]. split; [lia|].
  split; [exact Hexact|].
  apply (add_closed_range_effect new 1 5 10 H1 H5); [lia | exact Hexact].
Defined.

(** C1 as stated fails: after [add(1, 5, 10)] on a fresh object the point
    [5], which lies outside [[1, 5)], holds 10 instead of 0; read as
    breakpoints, the rendering moreover gives 10 at 7. *)
Lemma add_half_open_refuted :
  ¬ add_half_open intensity ∧ ¬ add_half_open step_value.
Proof.
  split; intros H.
  - destruct (H new 1 5 10 ltac:(lia)) as [_ Hout].
    specialize (Hout 5 ltac:(lia)). vm_compute in Hout. discriminate.
  - destruct (H new 1 5 10 ltac:(lia)) as [_ Hout].
    specialize (Hout 7 ltac:(lia)). vm_compute in Hout. discriminate.
Qed.

(** C2, as the code has it: a valid [set(from, to, amount)] whose bounds
    are safe integers completes normally, leaves exactly [amount] at every
    integer point [p] with [from <= p <= to] (the bound [to] included)
    whatever was there before, and leaves every point outside that closed
    range as it was. *)
Theorem set_closed_range_effect (m : gmap Z Z) (from to amount : Z) :
  safe from →
  safe to →
  from ≤ to →
  let r := set (Int from) (Int to) amount m in
  outcome r = Normal tt ∧
  (∀ p, from ≤ p ≤ to →
        segments r !! p = Some amount ∧ intensity (segments r) p = amount) ∧
  (∀ p, ¬ (from ≤ p ≤ to) →
        segments r !! p = m !! p ∧ intensity (segments r) p = intensity m p).
Proof.
  intros Hfrom Hto Hle r. split; [|split].
  - subst r. by rewrite set_run.
  - intros p Hp. unfold intensity. subst r.
    rewrite set_lookup, decide_True by done.
    by rewrite or_zero_default.
  - intros p Hp. unfold intensity. subst r.
    by rewrite set_lookup, decide_False by done.
Qed.

Lemma set_closed_range_effect_witness :
  safe 3 ∧ safe 4 ∧ 3 ≤ 4 ∧
  let r := set (Int 3) (Int 4) 5 (segments (add (Int 1) (Int 5) 10 new)) in
  outcome r = Normal tt ∧
  (∀ p, 3 ≤ p ≤ 4 → segments r !! p = Some 5 ∧ intensity (segments r) p = 5) ∧
  (∀ p, ¬ (3 ≤ p ≤ 4) →
        segments r !! p = segments (add (Int 1) (Int 5) 10 new) !! p ∧
        intensity (segments r) p =
          intensity (segments (add (Int 1) (Int 5) 10 new)) p).
Proof.
  assert (safe 3) as H3 by (unfold safe, MAX_SAFE_INTEGER; lia).
  assert (safe 4) as H4 by (unfold safe, MAX_SAFE_INTEGER; lia).
  split; [exact H3|]. split; [exact H4|]. split; [lia|].
  apply (set_closed_range_effect
           (segments (add (Int 1) (Int 5) 10 new)) 3 4 5 H3 H4).
  lia.
Defined.

(** C2 as stated fails: after [set(1, 5, 10)] on a fresh object the point
    [5], which lies outside [[1, 5)], holds 10 instead of 0; read as
    breakpoints, the rendering moreover gives 10 at 7. *)
Lemma set_half_open_refuted :
  ¬ set_half_open intensity ∧ ¬ set_half_open step_value.
Proof.
  split; intros H.
  - destruct (H new 1 5 10 ltac:(lia)) as [_ Hout].
    specialize (Hout 5 ltac:(lia)). vm_compute in Hout. discriminate.
  - destruct (H new 1 5 10 ltac:(lia)) as [_ Hout].
    specialize (Hout 7 ltac:(lia)). vm_compute in Hout. discriminate.
Qed.

(** * The guard *)

Lemma invalid_range_Int f t : invalid_range (Int f) (Int t) ↔ f > t.
Proof.
  unfold invalid_range, gt_reached. simpl. split.
  - intros [?|[?|(f' & t' & ? & ? & ?)]]; [done..|]. by simplify_eq.
  - intros ?. right. right. by exists f, t.
Qed.

Lemma classic_guard from to : invalid_range from to ∨ ¬ invalid_range from to.
Proof.
  destruct from as [f|], to as [t|];
    try (left; unfold invalid_range; simpl; tauto).
  rewrite invalid_range_Int. lia.
Qed.

Lemma guard_throws (op : value → value → Z → M unit) from to amount m :
  (op = add ∨ op = set) →
  invalid_range from to →
  op from to amount m = Result (Throw InvalidRange) m 0.
Proof.
  intros Hop Hinv.
  destruct from as [f|], to as [t|]; try (by destruct Hop as [->| ->]).
  apply invalid_range_Int in Hinv.
  destruct Hop as [->| ->]; simpl;
    (destruct (f >? t) eqn:E; [done | lia]).
Qed.

(** Past the guard nothing throws: the loop completes or never returns. *)
Lemma guard_passes (op : value → value → Z → M unit) from to amount m e :
  (op = add ∨ op = set) →
  ¬ invalid_range from to →
  outcome (op from to amount m) ≠ Throw e.
Proof.
  intros Hop Hval.
  destruct from as [f|], to as [t|];
    try (exfalso; apply Hval; unfold invalid_range; simpl; tauto).
  rewrite invalid_range_Int in Hval.
  destruct Hop as [->| ->]; cbn [add set];
    (destruct (f >? t) eqn:E; [lia|]); unfold for_range.
  - apply for_loop_not_Throw. intros i s. apply add_body_inserts.
  - apply for_loop_not_Throw. intros i s. apply set_body_inserts.
Qed.

(** C3: [add] and [set] throw the invalid-range error exactly when [from]
    is not an integer, or [to] is not an integer, or [from > to], whatever
    the amount; a call that throws leaves the store exactly as it found it
    (and has touched the [Map] zero times), and it throws nothing else. *)
Theorem invalid_range_iff_no_mutation
    (from to : value) (amount : Z) (m : gmap Z Z) :
  (outcome (add from to amount m) = Throw InvalidRange ↔
   invalid_range from to) ∧
  (outcome (set from to amount m) = Throw InvalidRange ↔
   invalid_range from to) ∧
  (∀ e, outcome (add from to amount m) = Throw e →
        add from to amount m = Result (Throw InvalidRange) m 0) ∧
  (∀ e, outcome (set from to amount m) = Throw e →
        set from to amount m = Result (Throw InvalidRange) m 0).
Proof.
  assert (∀ op, op = add ∨ op = set →
    (outcome (op from to amount m) = Throw InvalidRange ↔
     invalid_range from to) ∧
    (∀ e, outcome (op from to amount m) = Throw e →
          op from to amount m = Result (Throw InvalidRange) m 0)) as Hboth.
  { intros op Hop.
    destruct (classic_guard from to) as [Hinv|Hval].
    - pose proof (guard_throws op from to amount m Hop Hinv) as Hrun.
      rewrite Hrun. simpl. by split.
    - split; [split; [|tauto]|].
      + intros Hthrow. by apply guard_passes in Hthrow.
      + intros e Hthrow. by apply guard_passes in Hthrow. }
  destruct (Hboth add (or_introl eq_refl)) as [? ?].
  destruct (Hboth set (or_intror eq_refl)) as [? ?].
  done.
Qed.

(** * Adding twice *)

(** C7, as the code has it: from any store and for any safe integers
    [a <= b] and integers [x] and [y] such that the sums formed stay among
    the safe integers, running
    [add(a, b, x)] and then [add(a, b, y)] ends normally in the very store
    that the single call [add(a, b, x + y)] produces, so no later
    observation ([toString], the value at any point) tells them apart. *)
Theorem add_additive (m : gmap Z Z) (a b x y : Z) :
  safe a →
  safe b →
  a ≤ b →
  safe (x + y) →
  exact_add m a b x →
  exact_add m a b (x + y) →
  let twice := (let! _ := add (Int a) (Int b) x in add (Int a) (Int b) y) m in
  let once := add (Int a) (Int b) (x + y) m in
  outcome twice = Normal tt ∧
  outcome once = Normal tt ∧
  segments twice = segments once ∧
  (∀ p, intensity (segments twice) p = intensity (segments once) p) ∧
  outcome (toString (segments twice)) = outcome (toString (segments once)).
Proof.
  intros Ha Hb Hle _ Hx Hxy twice once.
  pose (m1 := segments (add (Int a) (Int b) x m)).
  assert (exact_add m1 a b y) as Hy.
  { intros p Hp. unfold intensity. subst m1.
    rewrite add_lookup, decide_True, (or_zero_default (Some _)) by done.
    simpl. specialize (Hxy p Hp). unfold intensity in Hxy.
    by replace (or_zero (m !! p) + x + y) with (or_zero (m !! p) + (x + y))
      by lia. }
  assert (twice = Result (Normal tt) (segments (add (Int a) (Int b) y m1))
            (2 * Z.to_nat (b - a + 1) + 2 * Z.to_nat (b - a + 1))) as Htwice.
  { subst twice m1.
    rewrite (bind_Normal _ _ _ _ _ _ (add_run a b x m Ha Hb Hle)).
    by rewrite !add_run. }
  assert (segments twice = segments once) as Hstore.
  { rewrite Htwice. subst once. cbn [segments]. apply map_eq. intros p.
    rewrite (add_lookup a b y m1), (add_lookup a b (x + y) m) by done.
    subst m1. rewrite add_lookup by done.
    case_decide; [|done].
    rewrite !or_zero_default. simpl. f_equal. lia. }
  split; [by rewrite Htwice|].
  split; [subst once; by rewrite add_run|].
  split; [done|]. by rewrite Hstore.
Qed.

Lemma add_additive_witness :
  safe 1 ∧ safe 3 ∧ 1 ≤ 3 ∧ safe (2 + 5) ∧
  exact_add new 1 3 2 ∧ exact_add new 1 3 (2 + 5) ∧
  let twice := (let! _ := add (Int 1) (Int 3) 2 in add (Int 1) (Int 3) 5) new in
  let once := add (Int 1) (Int 3) (2 + 5) new in
  outcome twice = Normal tt ∧
  outcome once = Normal tt ∧
  segments twice = segments once ∧
  (∀ p, intensity (segments twice) p = intensity (segments once) p) ∧
  outcome (toString (segments twice)) = outcome (toString (segments once)).
Proof.
  assert (safe 1) as H1 by (unfold safe, MAX_SAFE_INTEGER; lia).
  assert (safe 3) as H3 by (unfold safe, MAX_SAFE_INTEGER; lia).
  assert (exact_add new 1 3 2) as Hx
    by (intros p _; vm_compute; split; discriminate).
  assert (exact_add new 1 3 (2 + 5)) as Hxy
    by (intros p _; vm_compute; split; discriminate).
  assert (safe (2 + 5)) as H7 by (unfold safe, MAX_SAFE_INTEGER; lia).
  split; [exact H1|]. split; [exact H3|]. split; [lia|]. split; [exact H7|].
  split; [exact Hx|]. split; [exact Hxy|].
  apply (add_additive new 1 3 2 5 H1 H3);
    [lia | exact H7 | exact Hx | exact Hxy].
Defined.

(** C7 as stated fails: sums are rounded to doubles.  On the store that
    holds 2^53 at 1, [add(1, 1, 1)] twice leaves 2^53 there (each
    2^53 + 1 is rounded back to 2^53), while [add(1, 1, 2)] leaves
    2^53 + 2. *)
Lemma add_additive_refuted : ¬ add_always_additive.
Proof.
  intros H.
  specialize (H (<[1 := 9007199254740992]> ∅) 1 1 1 1 1 ltac:(lia)).
  vm_compute in H. discriminate.
Qed.

(** * [toString] *)





(** * The stored keys *)

(** No call removes a key, whatever its bounds and however it ends. *)
Lemma perform_is_Some (c : call) (m : gmap Z Z) (k : Z) :
  is_Some (m !! k) → is_Some (segments (perform c m) !! k).
Proof.
  intros Hk.
  assert (∀ op, op = add ∨ op = set → ∀ from to amount,
            is_Some (segments (op from to amount m) !! k)) as Hop.
  { intros op Hop from to amount.
    destruct (classic_guard from to) as [Hinv|Hval].
    - by rewrite (guard_throws op from to amount m Hop Hinv).
    - destruct from as [f|], to as [t|];
        try (exfalso; apply Hval; unfold invalid_range; simpl; tauto).
      rewrite invalid_range_Int in Hval.
      destruct Hop as [->| ->]; cbn [add set];
        (destruct (f >? t) eqn:E; [lia|]); unfold for_range;
        (apply for_loop_keeps; [|done]); intros i s.
      + apply add_body_inserts.
      + apply set_body_inserts. }
  destruct c as [from to amount|from to amount]; simpl; auto.
Qed.

Lemma perform_all_is_Some (cs : list call) (m : gmap Z Z) (k : Z) :
  is_Some (m !! k) → is_Some (segments (perform_all cs m) !! k).
Proof.
  revert m. induction cs as [|c cs IH]; intros m Hk; [done|].
  cbn [perform_all]. unfold bind.
  destruct (outcome (perform c m)) eqn:E; simpl.
  - by apply IH, perform_is_Some.
  - by apply perform_is_Some.
  - by apply perform_is_Some.
Qed.

Lemma perform_all_app (cs cs' : list call) (m : gmap Z Z) :
  segments (perform_all (cs ++ cs') m) = segments (perform_all cs m) ∨
  segments (perform_all (cs ++ cs') m) =
    segments (perform_all cs' (segments (perform_all cs m))).
Proof.
  revert m. induction cs as [|c cs IH]; intros m; [by right|].
  cbn [app perform_all]. unfold bind.
  destruct (outcome (perform c m)) eqn:E; simpl;
    [apply IH | by left | by left].
Qed.

(** C10, as the code has it: after a valid [add] or [set] whose bounds are
    safe integers every
    integer [k] with [from <= k <= to] is a stored key, and nothing
    removes a key: along any sequence of valid calls with safe bounds the
    set of stored keys only grows, and [toString] does not change the
    store. *)
Theorem keys_cover_range_and_grow (m : gmap Z Z) (from to amount : Z) :
  safe from →
  safe to →
  from ≤ to →
  (∀ k, from ≤ k ≤ to →
        k ∈ dom (segments (add (Int from) (Int to) amount m)) ∧
        k ∈ dom (segments (set (Int from) (Int to) amount m))) ∧
  dom m ⊆ dom (segments (add (Int from) (Int to) amount m)) ∧
  dom m ⊆ dom (segments (set (Int from) (Int to) amount m)) ∧
  (∀ cs cs' : list call,
     Forall (λ c, valid c = true ∧ safe_call c = true) (cs ++ cs') →
     dom (segments (perform_all cs m)) ⊆
     dom (segments (perform_all (cs ++ cs') m))) ∧
  segments (toString m) = m.
Proof.
  intros Hfrom Hto Hle. split; [|split; [|split; [|split]]].
  - intros k Hk.
    rewrite !elem_of_dom, add_lookup_rounded, set_lookup by done.
    by rewrite !decide_True by done.
  - intros k. rewrite !elem_of_dom.
    apply (perform_is_Some (CallAdd (Int from) (Int to) amount)).
  - intros k. rewrite !elem_of_dom.
    apply (perform_is_Some (CallSet (Int from) (Int to) amount)).
  - intros cs cs' _ k. rewrite !elem_of_dom. intros Hk.
    destruct (perform_all_app cs cs' m) as [-> | ->]; [done|].
    by apply perform_all_is_Some.
  - by rewrite toString_run.
Qed.

Lemma keys_cover_range_and_grow_witness :
  safe 1 ∧ safe 5 ∧ 1 ≤ 5 ∧
  (∀ k, 1 ≤ k ≤ 5 →
        k ∈ dom (segments (add (Int 1) (Int 5) 10 new)) ∧
        k ∈ dom (segments (set (Int 1) (Int 5) 10 new))) ∧
  dom new ⊆ dom (segments (add (Int 1) (Int 5) 10 new)) ∧
  dom new ⊆ dom (segments (set (Int 1) (Int 5) 10 new)) ∧
  (∀ cs cs' : list call,
     Forall (λ c, valid c = true ∧ safe_call c = true) (cs ++ cs') →
     dom (segments (perform_all cs new)) ⊆
     dom (segments (perform_all (cs ++ cs') new))) ∧
  segments (toString new) = new.
Proof.
  assert (safe 1) as H1 by (unfold safe, MAX_SAFE_INTEGER; lia).
  assert (safe 5) as H5 by (unfold safe, MAX_SAFE_INTEGER; lia).
  split; [exact H1|]. split; [exact H5|]. split; [lia|].
  apply (keys_cover_range_and_grow new 1 5 10 H1 H5). lia.
Defined.

(** C10 as stated fails below the safe integers: [add(-2^53 - 2, -2^53, 1)]
    and the same [set] on a fresh object return with the keys -2^53 - 2
    and -2^53 only, because [i++] takes [i] from -2^53 - 2 straight to
    -2^53; the integer -2^53 - 1 of the range is not stored. *)
Lemma range_stored_refuted : ¬ range_always_stored.
Proof.
  intros H.
  destruct (H new (-9007199254740994) (-9007199254740992) 1
              (-9007199254740993) ltac:(lia) ltac:(lia)) as [[v Hv] _].
  vm_compute in Hv. discriminate.
Qed.

(** * The worked example *)

(** C5, as the code has it: on a fresh object [add(1, 5, 10)] stores one
    entry for each of the points 1, 2, 3, 4 and 5, so [toString] returns
    ["1: 10, 2: 10, 3: 10, 4: 10, 5: 10"]: the value is 10 at every point of
    the closed range [[1, 5]] and 0 at every other point. *)
Theorem scenario_add_1_5_10 :
  let r := add (Int 1) (Int 5) 10 new in
  outcome r = Normal tt ∧
  entries (segments r) = [(1, 10); (2, 10); (3, 10); (4, 10); (5, 10)] ∧
  outcome (toString (segments r)) = Normal "1: 10, 2: 10, 3: 10, 4: 10, 5: 10" ∧
  ∀ p, intensity (segments r) p = if decide (1 ≤ p ≤ 5) then 10 else 0.
Proof.
  intros r. split; [|split; [|split]]; try by vm_compute.
  intros p. unfold intensity. subst r.
  rewrite add_lookup_rounded by safe_lia.
  unfold new. rewrite lookup_empty. by case_decide.
Qed.

(** C5 as stated fails: the rendering after [add(1, 5, 10)] is not the two
    breakpoints [1: 10] and [5: 0], and the value at 5 is not 0. *)
Lemma two_breakpoints_refuted :
  let r := add (Int 1) (Int 5) 10 new in
  entries (segments r) ≠ [(1, 10); (5, 0)] ∧
  outcome (toString (segments r)) ≠ Normal "1: 10, 5: 0" ∧
  intensity (segments r) 5 ≠ 0.
Proof. by vm_compute. Qed.

(** * The work a call does *)




(** * Canonical form *)

Lemma safe_call_bounds (c : call) (from to : Z) :
  safe_call c = true → bounds c = Some (from, to) → safe from ∧ safe to.
Proof.
  unfold safe_call. intros Hs Hb. rewrite Hb in Hs.
  apply andb_true_iff in Hs as [H1 H2].
  by apply bool_decide_eq_true in H1, H2.
Qed.

Lemma perform_valid (c : call) (m : gmap Z Z) :
  valid c = true →
  safe_call c = true →
  outcome (perform c m) = Normal tt ∧
  ∀ from to k, bounds c = Some (from, to) → from ≤ k ≤ to →
               is_Some (segments (perform c m) !! k).
Proof.
  intros Hv Hs.
  destruct c as [[f|] [t|] amount|[f|] [t|] amount]; try done;
    cbn [valid] in Hv; apply bool_decide_eq_true in Hv;
    destruct (safe_call_bounds _ f t Hs eq_refl) as [Hf Ht];
    cbn [perform bounds].
  - split; [by rewrite add_run|].
    intros from to k [= <- <-] Hk.
    by rewrite add_lookup_rounded, decide_True by done.
  - split; [by rewrite set_run|].
    intros from to k [= <- <-] Hk.
    by rewrite set_lookup, decide_True by done.
Qed.

Lemma perform_all_valid (cs : list call) (m : gmap Z Z) :
  Forall (λ c, valid c = true ∧ safe_call c = true) cs →
  outcome (perform_all cs m) = Normal tt ∧
  ∀ c from to k, c ∈ cs → bounds c = Some (from, to) → from ≤ k ≤ to →
                 is_Some (segments (perform_all cs m) !! k).
Proof.
  intros Hcs. revert m.
  induction Hcs as [|c cs [Hc Hs] _ IH]; intros m.
  - split; [done|]. intros c from to k Hin. by apply elem_of_nil in Hin.
  - destruct (perform_valid c m Hc Hs) as [Hout Hrange].
    destruct (IH (segments (perform c m))) as [IHout IHrange].
    cbn [perform_all]. unfold bind. rewrite Hout. simpl.
    split; [done|].
    intros c' from to k Hin Hb Hk.
    apply elem_of_cons in Hin as [->|Hin].
    + apply perform_all_is_Some. by eapply Hrange.
    + by eapply IHrange.
Qed.

(** C4, as the code has it: after any finite sequence of valid [add] and
    [set] calls with safe integer bounds on a fresh object every call has
    completed normally and the rendered sequence lists the stored pairs in
    strictly ascending key order, with an entry for every integer point of
    the closed range [[from, to]] of every call made; nothing is merged or
    dropped, so entries may repeat the value of the entry before them. *)
Theorem rendered_after_valid_calls (cs : list call) :
  Forall (λ c, valid c = true ∧ safe_call c = true) cs →
  let r := perform_all cs new in
  outcome r = Normal tt ∧
  StronglySorted (λ e1 e2 : Z * Z, e1.1 < e2.1) (entries (segments r)) ∧
  (∀ k v, (k, v) ∈ entries (segments r) ↔ segments r !! k = Some v) ∧
  (∀ c from to k, c ∈ cs → bounds c = Some (from, to) → from ≤ k ≤ to →
                  k ∈ (entries (segments r)).*1).
Proof.
  intros Hcs r. destruct (perform_all_valid cs new Hcs) as [Hout Hrange].
  split; [done|].
  split; [apply entries_strictly_ascending|].
  split; [apply elem_of_entries|].
  intros c from to k Hin Hb Hk.
  rewrite entries_keys, elem_of_sortedKeys. by eapply Hrange.
Qed.

Lemma rendered_after_valid_calls_witness :
  Forall (λ c, valid c = true ∧ safe_call c = true)
         [CallAdd (Int 1) (Int 5) 10; CallSet (Int 3) (Int 4) 5] ∧
  let r := perform_all [CallAdd (Int 1) (Int 5) 10; CallSet (Int 3) (Int 4) 5]
                       new in
  outcome r = Normal tt ∧
  StronglySorted (λ e1 e2 : Z * Z, e1.1 < e2.1) (entries (segments r)) ∧
  (∀ k v, (k, v) ∈ entries (segments r) ↔ segments r !! k = Some v) ∧
  (∀ c from to k,
     c ∈ [CallAdd (Int 1) (Int 5) 10; CallSet (Int 3) (Int 4) 5] →
     bounds c = Some (from, to) → from ≤ k ≤ to →
     k ∈ (entries (segments r)).*1).
Proof.
  assert (Forall (λ c, valid c = true ∧ safe_call c = true)
            [CallAdd (Int 1) (Int 5) 10; CallSet (Int 3) (Int 4) 5]) as Hcs
    by (repeat constructor).
  split; [exact Hcs|].
  exact (rendered_after_valid_calls _ Hcs).
Defined.

(** C4 as stated fails: after the single valid call [add(1, 5, 10)] on a
    fresh object the rendering is 1: 10, 2: 10, ..., 5: 10, where each
    entry after the first repeats the value of the entry before it. *)
Lemma canonical_form_refuted : ¬ always_canonical.
Proof.
  intros H.
  specialize (H [CallAdd (Int 1) (Int 5) 10] ltac:(repeat constructor)).
  vm_compute in H. discriminate.
Qed.

(** * Adding zero *)

(** What [toString] returns holds one [":"] for each stored entry. *)
Lemma count_colon_app (s1 s2 : string) :
  count_colon (s1 +:+ s2) = (count_colon s1 + count_colon s2)%nat.
Proof. induction s1 as [|a s1 IH]; simpl; [done|]. rewrite IH. lia. Qed.

Lemma count_colon_pretty_N_go (x : N) (s : string) :
  count_colon (pretty_N_go x s) = count_colon s.
Proof.
  revert s. induction (N.lt_wf_0 x) as [x _ IH]; intros s.
  destruct (decide (x = 0)%N) as [->|Hx]; [by rewrite pretty_N_go_0|].
  rewrite pretty_N_go_step by lia.
  rewrite IH by (apply N.div_lt; lia).
  cbn [count_colon].
  assert (Ascii.eqb (pretty_N_char (x `mod` 10)) ":" = false) as ->; [|done].
  unfold pretty_N_char. by repeat case_match.
Qed.

Lemma count_colon_pretty (z : Z) : count_colon (pretty z) = 0%nat.
Proof.
  assert (∀ p : positive, count_colon (pretty p) = 0%nat) as Hpos.
  { intros p. unfold pretty, pretty_positive, pretty, pretty_N.
    case_decide; [done|]. by rewrite count_colon_pretty_N_go. }
  destruct z as [|p|p]; unfold pretty, pretty_Z; [done|apply Hpos|].
  rewrite count_colon_app, Hpos. done.
Qed.

Lemma count_colon_show_pair (e : Z * Z) : count_colon (show_pair e) = 1%nat.
Proof.
  unfold show_pair. by rewrite !count_colon_app, !count_colon_pretty.
Qed.

Lemma count_colon_concat (es : list (Z * Z)) :
  count_colon (String.concat ", " (show_pair <$> es)) = length es.
Proof.
  induction es as [|e es IH]; [done|].
  rewrite fmap_cons. cbn [String.concat length].
  destruct es as [|e' es]; [apply count_colon_show_pair|].
  rewrite fmap_cons in *.
  change (count_colon (show_pair e +:+ ", " +:+
            String.concat ", " (show_pair e' :: (show_pair <$> es))) =
          S (length (e' :: es))).
  by rewrite !count_colon_app, count_colon_show_pair, IH.
Qed.

Lemma toString_size (m m' : gmap Z Z) :
  outcome (toString m') = outcome (toString m) → size m' = size m.
Proof.
  rewrite !toString_run. simpl. intros [= Heq].
  apply (f_equal count_colon) in Heq.
  by rewrite !count_colon_concat, !length_entries in Heq.
Qed.

Lemma add_zero_stored (m : gmap Z Z) (a b : Z) :
  safe a → safe b →
  a ≤ b →
  exact_add m a b 0 →
  (∀ k, a ≤ k ≤ b → is_Some (m !! k)) →
  segments (add (Int a) (Int b) 0 m) = m.
Proof.
  intros Ha Hb Hle Hexact Hall. apply map_eq. intros p.
  rewrite add_lookup by done. case_decide as Hp; [|done].
  destruct (Hall p Hp) as [v Hv]. rewrite Hv, or_zero_default. simpl.
  f_equal. lia.
Qed.

(** C6, as the code has it: for safe integers [a <= b] and a store whose
    values on [[a, b]] are safe integers, [add(a, b, 0)] leaves the value at
    every point as it was, and every integer of [[a, b]] that was not yet
    stored becomes a stored entry with value 0; what [toString] returns is
    therefore unchanged exactly when every integer of [[a, b]] was already
    a stored key. *)
Theorem add_zero_effect (m : gmap Z Z) (a b : Z) :
  safe a →
  safe b →
  a ≤ b →
  exact_add m a b 0 →
  let m' := segments (add (Int a) (Int b) 0 m) in
  (∀ p, intensity m' p = intensity m p) ∧
  (∀ k, a ≤ k ≤ b → m !! k = None → m' !! k = Some 0) ∧
  (outcome (toString m') = outcome (toString m) ↔
   ∀ k, a ≤ k ≤ b → is_Some (m !! k)).
Proof.
  intros Ha Hb Hle Hexact m'.
  assert (∀ p, m' !! p =
    if decide (a ≤ p ≤ b) then Some (or_zero (m !! p) + 0) else m !! p) as Hm'.
  { intros p. subst m'. by rewrite add_lookup. }
  split; [|split; [|split]].
  - intros p. unfold intensity. rewrite Hm'. case_decide; [|done].
    rewrite (or_zero_default (Some _)). simpl. lia.
  - intros k Hk Hnone. by rewrite Hm', decide_True, Hnone.
  - intros Heq k Hk. apply toString_size in Heq.
    assert (dom m ⊆ dom m') as Hsub.
    { intros p. rewrite !elem_of_dom, Hm'. by case_decide. }
    assert (dom m = dom m') as Hdom.
    { apply set_subseteq_size_eq; [done|]. rewrite !size_dom. lia. }
    apply elem_of_dom. rewrite Hdom. apply elem_of_dom.
    by rewrite Hm', decide_True.
  - intros Hall. subst m'. by rewrite add_zero_stored.
Qed.

Lemma add_zero_effect_witness :
  safe 1 ∧ safe 2 ∧ 1 ≤ 2 ∧ exact_add new 1 2 0 ∧
  let m' := segments (add (Int 1) (Int 2) 0 new) in
  (∀ p, intensity m' p = intensity new p) ∧
  (∀ k, 1 ≤ k ≤ 2 → new !! k = None → m' !! k = Some 0) ∧
  (outcome (toString m') = outcome (toString new) ↔
   ∀ k, 1 ≤ k ≤ 2 → is_Some (new !! k)).
Proof.
  assert (safe 1) as H1 by (unfold safe, MAX_SAFE_INTEGER; lia).
  assert (safe 2) as H2 by (unfold safe, MAX_SAFE_INTEGER; lia).
  assert (exact_add new 1 2 0) as Hexact
    by (intros p _; vm_compute; split; discriminate).
  split; [exact H1|]. split; [exact H2|]. split; [lia|].
  split; [exact Hexact|].
  apply (add_zero_effect new 1 2 H1 H2); [lia | exact Hexact].
Defined.

(** C6 as stated fails: on a fresh object [toString] returns the empty
    string, and after [add(1, 2, 0)] it returns ["1: 0, 2: 0"]. *)
Lemma add_zero_changes_toString : ¬ add_zero_keeps_toString.
Proof.
  intros H. specialize (H new 1 2 ltac:(lia)).
  vm_compute in H. discriminate.
Qed.

(** * How calls compose *)

(** What a valid call with safe bounds leaves at each key. *)
Lemma perform_lookup (c : call) (from to : Z) (m : gmap Z Z) (p : Z) :
  valid c = true →
  safe_call c = true →
  bounds c = Some (from, to) →
  segments (perform c m) !! p =
  if decide (from ≤ p ≤ to) then Some (written c (m !! p)) else m !! p.
Proof.
  intros Hv Hs Hb.
  destruct (safe_call_bounds c from to Hs Hb) as [Hfrom Hto].
  destruct c as [[f|] [t|] amount|[f|] [t|] amount]; try done;
    cbn [valid] in Hv; apply bool_decide_eq_true in Hv;
    cbn [bounds] in Hb; injection Hb as <- <-; cbn [perform written].
  - by apply add_lookup_rounded.
  - by apply set_lookup.
Qed.

(** Any valid call, whatever its bounds, stores the key [from]. *)
Lemma perform_first (c : call) (from to : Z) (m : gmap Z Z) :
  valid c = true →
  bounds c = Some (from, to) →
  is_Some (segments (perform c m) !! from).
Proof.
  intros Hv Hb.
  destruct c as [[f|] [t|] amount|[f|] [t|] amount]; try done;
    cbn [valid] in Hv; apply bool_decide_eq_true in Hv;
    cbn [bounds] in Hb; injection Hb as <- <-; cbn [perform add set];
    (destruct (f >? t) eqn:E; [lia|]);
    (apply for_range_first; [|done]); intros i s.
  - apply add_body_inserts.
  - apply set_body_inserts.
Qed.

Lemma valid_bounds_le (c : call) (from to : Z) :
  valid c = true → bounds c = Some (from, to) → from ≤ to.
Proof.
  intros Hv Hb.
  destruct c as [[f|] [t|] amount|[f|] [t|] amount]; try done;
    cbn [valid] in Hv; apply bool_decide_eq_true in Hv;
    cbn [bounds] in Hb; by injection Hb as <- <-.
Qed.

(** X1: [set] overwrites: with safe integer bounds throughout, a valid
    [set(a, b, v)] wipes out the effect of any valid call made just before
    it on a range lying inside [[a, b]]; in particular calling
    [set(a, b, v)] twice is the same as calling it once, and of two [set]s
    on one range the last wins. *)
Theorem set_overwrites
    (m : gmap Z Z) (c : call) (from to a b v : Z) :
  valid c = true →
  bounds c = Some (from, to) →
  safe a →
  safe b →
  a ≤ from →
  to ≤ b →
  segments (set (Int a) (Int b) v (segments (perform c m))) =
  segments (set (Int a) (Int b) v m).
Proof.
  intros Hv Hb Hsa Hsb Ha Hbnd.
  pose proof (valid_bounds_le c from to Hv Hb) as Hle.
  assert (safe_call c = true) as Hs.
  { unfold safe_call. rewrite Hb.
    apply andb_true_iff. split; apply bool_decide_eq_true; safe_lia. }
  apply map_eq. intros p.
  rewrite !set_lookup by (done || lia).
  case_decide as Hp; [done|].
  rewrite (perform_lookup c from to) by done.
  rewrite decide_False by lia. done.
Qed.

Lemma set_overwrites_witness :
  valid (CallSet (Int 2) (Int 4) 7) = true ∧
  bounds (CallSet (Int 2) (Int 4) 7) = Some (2, 4) ∧
  safe 1 ∧ safe 5 ∧
  1 ≤ 2 ∧ 4 ≤ 5 ∧
  segments (set (Int 1) (Int 5) 3
              (segments (perform (CallSet (Int 2) (Int 4) 7) new))) =
  segments (set (Int 1) (Int 5) 3 new).
Proof.
  assert (safe 1) as H1 by (unfold safe, MAX_SAFE_INTEGER; lia).
  assert (safe 5) as H5 by (unfold safe, MAX_SAFE_INTEGER; lia).
  split; [reflexivity|]. split; [reflexivity|].
  split; [exact H1|]. split; [exact H5|]. split; [lia|]. split; [lia|].
  apply (set_overwrites new (CallSet (Int 2) (Int 4) 7) 2 4 1 5 3);
    [reflexivity | reflexivity | exact H1 | exact H5 | lia | lia].
Defined.

(** X2: two valid [add]s with safe integer bounds can be made in either
    order, whatever their ranges, as long as the sums formed stay among the
    safe integers: both orders end in the same store. *)
Theorem add_commutes (m : gmap Z Z) (a b x c d y : Z) :
  safe a → safe b → safe c → safe d →
  a ≤ b →
  c ≤ d →
  exact_add m a b x →
  exact_add m c d y →
  (∀ p, a ≤ p ≤ b → c ≤ p ≤ d → safe (intensity m p + x + y)) →
  segments (add (Int c) (Int d) y (segments (add (Int a) (Int b) x m))) =
  segments (add (Int a) (Int b) x (segments (add (Int c) (Int d) y m))).
Proof.
  intros Ha Hb Hc Hd Hab Hcd Hx Hy Hxy. apply map_eq. intros p.
  rewrite !add_lookup_rounded by done.
  destruct (decide (a ≤ p ≤ b)) as [Hp1|Hp1],
           (decide (c ≤ p ≤ d)) as [Hp2|Hp2]; try done.
  pose proof (Hx p Hp1) as Hx'. pose proof (Hy p Hp2) as Hy'.
  pose proof (Hxy p Hp1 Hp2) as Hxy'. unfold intensity in *.
  rewrite !(js_add_exact (or_zero (m !! p))) by done.
  rewrite !(or_zero_default (Some _)). simpl.
  rewrite (js_add_exact _ y) by done.
  rewrite (js_add_exact _ x); [f_equal; lia|].
  by replace (or_zero (m !! p) + y + x) with (or_zero (m !! p) + x + y)
    by lia.
Qed.

Lemma add_commutes_witness :
  safe 1 ∧ safe 5 ∧ safe 4 ∧ safe 8 ∧
  1 ≤ 5 ∧ 4 ≤ 8 ∧
  exact_add new 1 5 10 ∧
  exact_add new 4 8 5 ∧
  (∀ p, 1 ≤ p ≤ 5 → 4 ≤ p ≤ 8 → safe (intensity new p + 10 + 5)) ∧
  segments (add (Int 4) (Int 8) 5 (segments (add (Int 1) (Int 5) 10 new))) =
  segments (add (Int 1) (Int 5) 10 (segments (add (Int 4) (Int 8) 5 new))).
Proof.
  assert (∀ z, -100 ≤ z ≤ 100 → safe z) as Hsafe
    by (intros z Hz; unfold safe, MAX_SAFE_INTEGER; lia).
  assert (exact_add new 1 5 10) as Hx
    by (intros p _; vm_compute; split; discriminate).
  assert (exact_add new 4 8 5) as Hy
    by (intros p _; vm_compute; split; discriminate).
  assert (∀ p, 1 ≤ p ≤ 5 → 4 ≤ p ≤ 8 → safe (intensity new p + 10 + 5))
    as Hxy by (intros p _ _; vm_compute; split; discriminate).
  do 4 (split; [apply Hsafe; lia|]). split; [lia|]. split; [lia|].
  split; [exact Hx|]. split; [exact Hy|]. split; [exact Hxy|].
  apply (add_commutes new 1 5 10 4 8 5);
    [apply Hsafe; lia | apply Hsafe; lia | apply Hsafe; lia
    | apply Hsafe; lia | lia | lia | exact Hx | exact Hy | exact Hxy].
Defined.

(** X3: valid calls with safe integer bounds on ranges that share no point
    can be made in either order, be they [add]s or [set]s: both orders end
    in the same store. *)
Theorem disjoint_calls_commute
    (m : gmap Z Z) (c1 c2 : call) (f1 t1 f2 t2 : Z) :
  valid c1 = true →
  valid c2 = true →
  safe_call c1 = true →
  safe_call c2 = true →
  bounds c1 = Some (f1, t1) →
  bounds c2 = Some (f2, t2) →
  t1 < f2 ∨ t2 < f1 →
  segments (perform c2 (segments (perform c1 m))) =
  segments (perform c1 (segments (perform c2 m))).
Proof.
  intros Hv1 Hv2 Hs1 Hs2 Hb1 Hb2 Hdisj. apply map_eq. intros p.
  rewrite (perform_lookup c2 f2 t2), (perform_lookup c1 f1 t1) by done.
  rewrite (perform_lookup c1 f1 t1), (perform_lookup c2 f2 t2) by done.
  destruct (decide (f1 ≤ p ≤ t1)), (decide (f2 ≤ p ≤ t2)); try done.
  lia.
Qed.

Lemma disjoint_calls_commute_witness :
  valid (CallAdd (Int 1) (Int 3) 10) = true ∧
  valid (CallSet (Int 4) (Int 6) 2) = true ∧
  safe_call (CallAdd (Int 1) (Int 3) 10) = true ∧
  safe_call (CallSet (Int 4) (Int 6) 2) = true ∧
  bounds (CallAdd (Int 1) (Int 3) 10) = Some (1, 3) ∧
  bounds (CallSet (Int 4) (Int 6) 2) = Some (4, 6) ∧
  (3 < 4 ∨ 6 < 1) ∧
  segments (perform (CallSet (Int 4) (Int 6) 2)
              (segments (perform (CallAdd (Int 1) (Int 3) 10) new))) =
  segments (perform (CallAdd (Int 1) (Int 3) 10)
              (segments (perform (CallSet (Int 4) (Int 6) 2) new))).
Proof.
  do 6 (split; [reflexivity|]). split; [lia|].
  apply (disjoint_calls_commute new (CallAdd (Int 1) (Int 3) 10)
           (CallSet (Int 4) (Int 6) 2) 1 3 4 6);
    [reflexivity | reflexivity | reflexivity | reflexivity
    | reflexivity | reflexivity | lia].
Defined.

(** X4: for safe integers [a <= b] and a safe sum [v + x], [set(a, b, v)]
    followed by [add(a, b, x)] ends in the store that [set(a, b, v + x)]
    alone produces. *)
Theorem set_then_add (m : gmap Z Z) (a b v x : Z) :
  safe a →
  safe b →
  a ≤ b →
  safe (v + x) →
  segments (add (Int a) (Int b) x (segments (set (Int a) (Int b) v m))) =
  segments (set (Int a) (Int b) (v + x) m).
Proof.
  intros Ha Hb Hab Hvx. apply map_eq. intros p.
  rewrite add_lookup_rounded, !set_lookup by done.
  case_decide; [|done].
  rewrite or_zero_default. simpl. by rewrite js_add_exact.
Qed.

Lemma set_then_add_witness :
  safe 1 ∧ safe 3 ∧ 1 ≤ 3 ∧ safe (-4 + 4) ∧
  segments (add (Int 1) (Int 3) 4 (segments (set (Int 1) (Int 3) (-4) new))) =
  segments (set (Int 1) (Int 3) (-4 + 4) new).
Proof.
  assert (∀ z, -100 ≤ z ≤ 100 → safe z) as Hsafe
    by (intros z Hz; unfold safe, MAX_SAFE_INTEGER; lia).
  do 2 (split; [apply Hsafe; lia|]). split; [lia|].
  split; [apply Hsafe; lia|].
  apply (set_then_add new 1 3 (-4) 4); [..|lia|]; apply Hsafe; lia.
Defined.

(** X5: ranges are closed, so a range splits into [[a, b]] and [[b + 1, c]]:
    for safe integers [a <= b < c], the call on [[a, b]] followed by the
    same call on [[b + 1, c]] ends in the store that the one call on
    [[a, c]] produces, for [add] and for [set]. *)
Theorem range_splits (m : gmap Z Z) (a b c x : Z) :
  safe a →
  safe c →
  a ≤ b →
  b < c →
  segments (add (Int (b + 1)) (Int c) x (segments (add (Int a) (Int b) x m))) =
    segments (add (Int a) (Int c) x m) ∧
  segments (set (Int (b + 1)) (Int c) x (segments (set (Int a) (Int b) x m))) =
    segments (set (Int a) (Int c) x m).
Proof.
  intros Ha Hc Hab Hbc.
  assert (safe b ∧ safe (b + 1)) as [Hb Hb1] by safe_lia.
  split; apply map_eq; intros p.
  - rewrite !add_lookup_rounded by (done || lia).
    destruct (decide (b + 1 ≤ p ≤ c)), (decide (a ≤ p ≤ b)),
             (decide (a ≤ p ≤ c)); try done; lia.
  - rewrite !set_lookup by (done || lia).
    destruct (decide (b + 1 ≤ p ≤ c)), (decide (a ≤ p ≤ b)),
             (decide (a ≤ p ≤ c)); try done; lia.
Qed.

Lemma range_splits_witness :
  safe 1 ∧ safe 5 ∧ 1 ≤ 3 ∧ 3 < 5 ∧
  segments (add (Int (3 + 1)) (Int 5) 10
              (segments (add (Int 1) (Int 3) 10 new))) =
    segments (add (Int 1) (Int 5) 10 new) ∧
  segments (set (Int (3 + 1)) (Int 5) 10
              (segments (set (Int 1) (Int 3) 10 new))) =
    segments (set (Int 1) (Int 5) 10 new).
Proof.
  assert (safe 1) as H1 by (unfold safe, MAX_SAFE_INTEGER; lia).
  assert (safe 5) as H5 by (unfold safe, MAX_SAFE_INTEGER; lia).
  split; [exact H1|]. split; [exact H5|]. split; [lia|]. split; [lia|].
  apply (range_splits new 1 3 5 10 H1 H5); lia.
Defined.

(** X6: two [add]s whose ranges touch, [add(a, b, x)] and then [add(b, c, y)]
    with safe integers [a <= b <= c] and sums that stay among the safe
    integers, both reach the shared bound [b]: it receives [x + y], the
    points before it [x], the points after it [y], and the points outside
    [[a, c]] nothing. *)
Theorem add_touching_ranges (m : gmap Z Z) (a b c x y : Z) :
  safe a →
  safe c →
  a ≤ b →
  b ≤ c →
  exact_add m a b x →
  exact_add m b c y →
  safe (intensity m b + x + y) →
  let m' :=
    segments (add (Int b) (Int c) y (segments (add (Int a) (Int b) x m))) in
  intensity m' b = intensity m b + x + y ∧
  (∀ p, a ≤ p < b → intensity m' p = intensity m p + x) ∧
  (∀ p, b < p ≤ c → intensity m' p = intensity m p + y) ∧
  (∀ p, p < a ∨ c < p → intensity m' p = intensity m p).
Proof.
  intros Ha Hc Hab Hbc Hx Hy Hxy m'.
  assert (safe b) as Hb by safe_lia.
  assert (∀ p, intensity m' p =
            intensity m p + (if decide (a ≤ p ≤ b) then x else 0)
                          + (if decide (b ≤ p ≤ c) then y else 0)) as Hat.
  { intros p. subst m'. unfold intensity at 1.
    rewrite !add_lookup_rounded by done.
    destruct (decide (b ≤ p ≤ c)) as [Hp2|Hp2],
             (decide (a ≤ p ≤ b)) as [Hp1|Hp1];
      rewrite ?(or_zero_default (Some _)); simpl; fold (intensity m p);
      try lia.
    - assert (p = b) as -> by lia.
      rewrite (js_add_exact _ x) by apply (Hx b Hp1).
      by rewrite js_add_exact.
    - rewrite js_add_exact by apply (Hy p Hp2). lia.
    - rewrite js_add_exact by apply (Hx p Hp1). lia. }
  split; [|split; [|split]].
  - rewrite Hat, !decide_True by lia. done.
  - intros p Hp. rewrite Hat, decide_True, decide_False by lia. lia.
  - intros p Hp. rewrite Hat, decide_False, decide_True by lia. lia.
  - intros p Hp. rewrite Hat, !decide_False by lia. lia.
Qed.

Lemma add_touching_ranges_witness :
  safe 1 ∧ safe 9 ∧ 1 ≤ 5 ∧ 5 ≤ 9 ∧
  exact_add new 1 5 10 ∧ exact_add new 5 9 3 ∧
  safe (intensity new 5 + 10 + 3) ∧
  let m' :=
    segments (add (Int 5) (Int 9) 3 (segments (add (Int 1) (Int 5) 10 new))) in
  intensity m' 5 = intensity new 5 + 10 + 3 ∧
  (∀ p, 1 ≤ p < 5 → intensity m' p = intensity new p + 10) ∧
  (∀ p, 5 < p ≤ 9 → intensity m' p = intensity new p + 3) ∧
  (∀ p, p < 1 ∨ 9 < p → intensity m' p = intensity new p).
Proof.
  assert (safe 1) as H1 by (unfold safe, MAX_SAFE_INTEGER; lia).
  assert (safe 9) as H9 by (unfold safe, MAX_SAFE_INTEGER; lia).
  assert (exact_add new 1 5 10) as Hx
    by (intros p _; vm_compute; split; discriminate).
  assert (exact_add new 5 9 3) as Hy
    by (intros p _; vm_compute; split; discriminate).
  assert (safe (intensity new 5 + 10 + 3)) as Hxy
    by (vm_compute; split; discriminate).
  split; [exact H1|]. split; [exact H9|]. split; [lia|]. split; [lia|].
  split; [exact Hx|]. split; [exact Hy|]. split; [exact Hxy|].
  apply (add_touching_ranges new 1 5 9 10 3 H1 H9);
    [lia | lia | exact Hx | exact Hy | exact Hxy].
Defined.

(** X7: [add] reads a missing entry and a stored 0 alike, as 0: for safe
    integers [a <= b], a safe amount [x] and sums that stay among the safe
    integers, [add(a, b, x)] and [set(a, b, x)] end in the same store
    exactly when every point of [[a, b]] holds 0 beforehand; on a fresh
    object they always do. *)
Theorem add_is_set_on_zero (m : gmap Z Z) (a b x : Z) :
  safe a →
  safe b →
  a ≤ b →
  safe x →
  exact_add m a b x →
  (segments (add (Int a) (Int b) x m) = segments (set (Int a) (Int b) x m) ↔
   ∀ p, a ≤ p ≤ b → intensity m p = 0) ∧
  segments (add (Int a) (Int b) x new) = segments (set (Int a) (Int b) x new).
Proof.
  intros Ha Hb Hab Hsx Hx.
  assert (∀ m0 : gmap Z Z, (∀ p, a ≤ p ≤ b → intensity m0 p = 0) →
            segments (add (Int a) (Int b) x m0) =
            segments (set (Int a) (Int b) x m0)) as Hzero.
  { intros m0 H0. apply map_eq. intros p.
    rewrite add_lookup_rounded, set_lookup by done.
    case_decide as Hp; [|done].
    specialize (H0 p Hp). unfold intensity in H0.
    by rewrite H0, js_add_exact. }
  split; [split|].
  - intros Heq p Hp. apply (f_equal (λ s : gmap Z Z, s !! p)) in Heq.
    rewrite add_lookup, set_lookup, !decide_True in Heq by done.
    unfold intensity. injection Heq as Heq. lia.
  - apply Hzero.
  - apply Hzero. intros p _. done.
Qed.

Lemma add_is_set_on_zero_witness :
  safe 2 ∧ safe 4 ∧ 2 ≤ 4 ∧ safe 7 ∧ exact_add new 2 4 7 ∧
  (segments (add (Int 2) (Int 4) 7 new) = segments (set (Int 2) (Int 4) 7 new) ↔
   ∀ p, 2 ≤ p ≤ 4 → intensity new p = 0) ∧
  segments (add (Int 2) (Int 4) 7 new) = segments (set (Int 2) (Int 4) 7 new).
Proof.
  assert (∀ z, -100 ≤ z ≤ 100 → safe z) as Hsafe
    by (intros z Hz; unfold safe, MAX_SAFE_INTEGER; lia).
  assert (exact_add new 2 4 7) as Hx
    by (intros p _; vm_compute; split; discriminate).
  do 2 (split; [apply Hsafe; lia|]). split; [lia|].
  split; [apply Hsafe; lia|]. split; [exact Hx|].
  apply (add_is_set_on_zero new 2 4 7);
    [apply Hsafe; lia | apply Hsafe; lia | lia | apply Hsafe; lia | exact Hx].
Defined.

(** X8: adding the opposite amount does not undo an [add]: for safe
    integers [a <= b], values on [[a, b]] that are safe integers and sums
    that stay among them, [add(a, b, x)] followed by [add(a, b, -x)] gives
    every point its former value back, but every integer of [[a, b]] stays
    a stored key, so the store is the former one only if all of them were
    stored already. *)
Theorem add_opposite (m : gmap Z Z) (a b x : Z) :
  safe a →
  safe b →
  a ≤ b →
  exact_add m a b 0 →
  exact_add m a b x →
  let m' :=
    segments (add (Int a) (Int b) (- x) (segments (add (Int a) (Int b) x m))) in
  (∀ p, intensity m' p = intensity m p) ∧
  (∀ k, a ≤ k ≤ b → m' !! k = Some (intensity m k)) ∧
  (m' = m ↔ ∀ k, a ≤ k ≤ b → is_Some (m !! k)).
Proof.
  intros Ha Hb Hab H0 Hx m'.
  assert (∀ p, m' !! p =
            if decide (a ≤ p ≤ b) then Some (intensity m p) else m !! p) as Hm'.
  { intros p. subst m'. rewrite !add_lookup_rounded by done.
    case_decide as Hp; [|done].
    pose proof (H0 p Hp) as H0'. pose proof (Hx p Hp) as Hx'.
    unfold intensity in *.
    rewrite (js_add_exact _ x), (or_zero_default (Some _)) by done. simpl.
    rewrite js_add_exact; [f_equal; lia|].
    by replace (or_zero (m !! p) + x + - x) with (or_zero (m !! p) + 0)
      by lia. }
  split; [|split; [|split]].
  - intros p. unfold intensity at 1. rewrite Hm'.
    case_decide; [|done]. by rewrite or_zero_default.
  - intros k Hk. by rewrite Hm', decide_True.
  - intros Heq k Hk. rewrite <- Heq, Hm', decide_True by done. by eexists.
  - intros Hall. apply map_eq. intros p. rewrite Hm'.
    case_decide as Hp; [|done].
    destruct (Hall p Hp) as [v Hv]. unfold intensity.
    by rewrite Hv, or_zero_default.
Qed.

Lemma add_opposite_witness :
  safe 1 ∧ safe 2 ∧ 1 ≤ 2 ∧ exact_add new 1 2 0 ∧ exact_add new 1 2 5 ∧
  let m' :=
    segments (add (Int 1) (Int 2) (- 5)
                (segments (add (Int 1) (Int 2) 5 new))) in
  (∀ p, intensity m' p = intensity new p) ∧
  (∀ k, 1 ≤ k ≤ 2 → m' !! k = Some (intensity new k)) ∧
  (m' = new ↔ ∀ k, 1 ≤ k ≤ 2 → is_Some (new !! k)).
Proof.
  assert (safe 1) as H1 by (unfold safe, MAX_SAFE_INTEGER; lia).
  assert (safe 2) as H2 by (unfold safe, MAX_SAFE_INTEGER; lia).
  assert (exact_add new 1 2 0) as H0
    by (intros p _; vm_compute; split; discriminate).
  assert (exact_add new 1 2 5) as Hx
    by (intros p _; vm_compute; split; discriminate).
  split; [exact H1|]. split; [exact H2|]. split; [lia|].
  split; [exact H0|]. split; [exact Hx|].
  apply (add_opposite new 1 2 5 H1 H2); [lia | exact H0 | exact Hx].
Defined.

(** * Which keys are stored *)

Lemma valid_has_bounds (c : call) :
  valid c = true → ∃ from to, bounds c = Some (from, to).
Proof.
  destruct c as [[f|] [t|] amount|[f|] [t|] amount]; try done;
    intros _; by exists f, t.
Qed.

Lemma perform_all_cons_valid (c : call) (cs : list call) (m : gmap Z Z) :
  valid c = true →
  safe_call c = true →
  segments (perform_all (c :: cs) m) =
  segments (perform_all cs (segments (perform c m))).
Proof.
  intros Hv Hs. destruct (perform_valid c m Hv Hs) as [Hout _].
  cbn [perform_all]. unfold bind. by rewrite Hout.
Qed.

Lemma perform_all_stored_inv (cs : list call) (m : gmap Z Z) (p : Z) :
  Forall (λ c, valid c = true ∧ safe_call c = true) cs →
  is_Some (segments (perform_all cs m) !! p) →
  is_Some (m !! p) ∨
  ∃ c from to, c ∈ cs ∧ bounds c = Some (from, to) ∧ from ≤ p ≤ to.
Proof.
  intros Hcs. revert m.
  induction Hcs as [|c cs [Hc Hs] _ IH]; intros m Hp; [by left|].
  rewrite perform_all_cons_valid in Hp by done.
  destruct (IH _ Hp) as [Hp'|(c' & f & t & Hin & Hb & Hrange)].
  - destruct (valid_has_bounds c Hc) as (f & t & Hb).
    rewrite (perform_lookup c f t) in Hp' by done.
    destruct (decide (f ≤ p ≤ t)) as [Hrange|_]; [|by left].
    right. exists c, f, t. split; [apply list_elem_of_here | done].
  - right. exists c', f, t. split; [by apply list_elem_of_further | done].
Qed.

(** X9: after any sequence of valid calls with safe integer bounds on a
    fresh object, the stored keys are exactly the integers lying in the
    closed range of some call made: a point no call has covered has no
    entry, reads as 0 and is not printed. *)
Theorem stored_keys_are_covered (cs : list call) (p : Z) :
  Forall (λ c, valid c = true ∧ safe_call c = true) cs →
  let m := segments (perform_all cs new) in
  (is_Some (m !! p) ↔
   ∃ c from to, c ∈ cs ∧ bounds c = Some (from, to) ∧ from ≤ p ≤ to) ∧
  ((∀ c from to, c ∈ cs → bounds c = Some (from, to) → ¬ (from ≤ p ≤ to)) →
   m !! p = None ∧ intensity m p = 0 ∧ p ∉ (entries m).*1).
Proof.
  intros Hcs m.
  assert (is_Some (m !! p) ↔
          ∃ c from to, c ∈ cs ∧ bounds c = Some (from, to) ∧ from ≤ p ≤ to)
    as Hiff.
  { split.
    - intros Hp. destruct (perform_all_stored_inv cs new p Hcs Hp) as [H|H].
      + unfold new in H. rewrite lookup_empty in H. by destruct H.
      + done.
    - intros (c & f & t & Hin & Hb & Hrange).
      destruct (perform_all_valid cs new Hcs) as [_ Hcov]. by eapply Hcov. }
  split; [done|].
  intros Hnone.
  assert (m !! p = None) as Hp.
  { apply eq_None_not_Some. rewrite Hiff.
    intros (c & f & t & Hin & Hb & Hrange). by eapply Hnone. }
  split; [done|]. split.
  - unfold intensity. by rewrite Hp.
  - rewrite entries_keys, elem_of_sortedKeys, Hp. by intros [? ?].
Qed.

Lemma stored_keys_are_covered_witness :
  Forall (λ c, valid c = true ∧ safe_call c = true)
         [CallAdd (Int 1) (Int 3) 10; CallSet (Int 7) (Int 8) 2] ∧
  let m := segments (perform_all
                       [CallAdd (Int 1) (Int 3) 10; CallSet (Int 7) (Int 8) 2]
                       new) in
  (is_Some (m !! 5) ↔
   ∃ c from to,
     c ∈ [CallAdd (Int 1) (Int 3) 10; CallSet (Int 7) (Int 8) 2] ∧
     bounds c = Some (from, to) ∧ from ≤ 5 ≤ to) ∧
  ((∀ c from to,
      c ∈ [CallAdd (Int 1) (Int 3) 10; CallSet (Int 7) (Int 8) 2] →
      bounds c = Some (from, to) → ¬ (from ≤ 5 ≤ to)) →
   m !! 5 = None ∧ intensity m 5 = 0 ∧ 5 ∉ (entries m).*1).
Proof.
  assert (Forall (λ c, valid c = true ∧ safe_call c = true)
            [CallAdd (Int 1) (Int 3) 10; CallSet (Int 7) (Int 8) 2]) as Hcs
    by (repeat constructor).
  split; [exact Hcs|].
  exact (stored_keys_are_covered _ 5 Hcs).
Defined.

(** X10: a valid call with safe integer bounds stores a key for every
    integer of its closed range and for nothing else: the keys afterwards
    are the former keys together with the integers of [[from, to]], so the
    number of entries grows by at most [to - from + 1], and on a fresh
    object it is exactly [to - from + 1]. *)
Theorem call_extends_keys (m : gmap Z Z) (c : call) (from to : Z) :
  valid c = true →
  safe_call c = true →
  bounds c = Some (from, to) →
  let m' := segments (perform c m) in
  (∀ k, is_Some (m' !! k) ↔ is_Some (m !! k) ∨ from ≤ k ≤ to) ∧
  (size m ≤ size m' ≤ size m + Z.to_nat (to - from + 1))%nat ∧
  Z.of_nat (size (segments (perform c new))) = to - from + 1.
Proof.
  intros Hv Hs Hb m'.
  pose proof (valid_bounds_le c from to Hv Hb) as Hle.
  assert (∀ m0 : gmap Z Z,
            dom (segments (perform c m0)) =
            dom m0 ∪ list_to_set (seqZ from (to - from + 1))) as Hdom.
  { intros m0. apply set_eq. intros k.
    rewrite elem_of_union, elem_of_list_to_set, elem_of_range, !elem_of_dom.
    rewrite (perform_lookup c from to) by done.
    case_decide; [|tauto]. split; [by right | by eexists]. }
  assert (size (list_to_set (seqZ from (to - from + 1)) : gset Z) =
          Z.to_nat (to - from + 1)) as Hsize.
  { rewrite size_list_to_set by apply NoDup_seqZ. apply length_seqZ. }
  split; [|split].
  - intros k. subst m'. rewrite (perform_lookup c from to) by done.
    case_decide; [|tauto]. split; [by right | by eexists].
  - rewrite <- !size_dom. subst m'. rewrite Hdom. split.
    + apply subseteq_size. apply union_subseteq_l.
    + rewrite size_union_alt, <- Hsize.
      apply Nat.add_le_mono_l, subseteq_size. apply subseteq_difference_l.
      done.
  - rewrite <- size_dom, Hdom. unfold new.
    rewrite dom_empty_L, (left_id_L ∅ (∪)), Hsize. lia.
Qed.

Lemma call_extends_keys_witness :
  valid (CallSet (Int 3) (Int 7) 1) = true ∧
  safe_call (CallSet (Int 3) (Int 7) 1) = true ∧
  bounds (CallSet (Int 3) (Int 7) 1) = Some (3, 7) ∧
  let m := segments (add (Int 1) (Int 5) 10 new) in
  let m' := segments (perform (CallSet (Int 3) (Int 7) 1) m) in
  (∀ k, is_Some (m' !! k) ↔ is_Some (m !! k) ∨ 3 ≤ k ≤ 7) ∧
  (size m ≤ size m' ≤ size m + Z.to_nat (7 - 3 + 1))%nat ∧
  Z.of_nat (size (segments (perform (CallSet (Int 3) (Int 7) 1) new))) =
    7 - 3 + 1.
Proof.
  split; [reflexivity|]. split; [reflexivity|]. split; [reflexivity|].
  apply (call_extends_keys (segments (add (Int 1) (Int 5) 10 new))
           (CallSet (Int 3) (Int 7) 1) 3 7); reflexivity.
Defined.

(** * Reading a store back off what [toString] returns *)

Lemma string_app_cons (a : ascii) (s t : string) :
  String a s +:+ t = String a (s +:+ t).
Proof. reflexivity. Qed.

Lemma string_app_assoc (s1 s2 s3 : string) :
  (s1 +:+ s2) +:+ s3 = s1 +:+ (s2 +:+ s3).
Proof.
  induction s1 as [|a s1 IH]; [done|].
  change (String a ((s1 +:+ s2) +:+ s3) = String a (s1 +:+ (s2 +:+ s3))).
  by rewrite IH.
Qed.

Lemma no_delim_app (s1 s2 : string) :
  no_delim s1 = true → no_delim s2 = true → no_delim (s1 +:+ s2) = true.
Proof.
  intros H1 H2. induction s1 as [|a s1 IH]; simpl in *; [done|].
  apply andb_true_iff in H1 as [Ha H1]. rewrite Ha. simpl. by apply IH.
Qed.

Lemma no_delim_pretty_N_go (x : N) (s : string) :
  no_delim s = true → no_delim (pretty_N_go x s) = true.
Proof.
  revert s. induction (N.lt_wf_0 x) as [x _ IH]; intros s Hs.
  destruct (decide (x = 0)%N) as [->|Hx]; [by rewrite pretty_N_go_0|].
  rewrite pretty_N_go_step by lia.
  apply IH; [apply N.div_lt; lia|].
  cbn [no_delim]. rewrite Hs, andb_true_r.
  unfold pretty_N_char. by repeat case_match.
Qed.

(** A printed integer is made of digits and a sign. *)
Lemma no_delim_pretty (z : Z) : no_delim (pretty z) = true.
Proof.
  assert (∀ p : positive, no_delim (pretty p) = true) as Hpos.
  { intros p. unfold pretty, pretty_positive, pretty, pretty_N.
    case_decide; [done|]. by apply no_delim_pretty_N_go. }
  destruct z as [|p|p]; unfold pretty, pretty_Z; [done|apply Hpos|].
  by apply no_delim_app.
Qed.

(** Where a separator-free prefix ends is determined by the string. *)
Lemma split_at_delim (s1 s2 t1 t2 : string) :
  no_delim s1 = true → no_delim s2 = true →
  starts_delim t1 = true → starts_delim t2 = true →
  s1 +:+ t1 = s2 +:+ t2 →
  s1 = s2 ∧ t1 = t2.
Proof.
  revert s2. induction s1 as [|a s1 IH]; intros [|a' s2] H1 H2 Ht1 Ht2 Heq;
    rewrite ?string_app_cons in Heq;
    change ("" +:+ t1) with t1 in Heq; change ("" +:+ t2) with t2 in Heq;
    simpl in *.
  - done.
  - subst t1. simpl in Ht1. apply andb_true_iff in H2 as [Ha _].
    by rewrite Ht1 in Ha.
  - subst t2. simpl in Ht2. apply andb_true_iff in H1 as [Ha _].
    by rewrite Ht2 in Ha.
  - injection Heq as -> Heq.
    apply andb_true_iff in H1 as [_ H1]. apply andb_true_iff in H2 as [_ H2].
    destruct (IH s2 H1 H2 Ht1 Ht2 Heq) as [-> ->]. done.
Qed.

Lemma string_app_nil_r (s : string) : s +:+ "" = s.
Proof.
  induction s as [|a s IH]; [done|].
  change (String a (s +:+ "") = String a s). by rewrite IH.
Qed.

Lemma show_pair_app (e : Z * Z) (t : string) :
  show_pair e +:+ t = pretty e.1 +:+ ": " +:+ pretty e.2 +:+ t.
Proof. unfold show_pair. by rewrite string_app_assoc. Qed.

(** What follows the first printed pair: nothing, or [", "] and the rest. *)
Lemma concat_show_cons (e : Z * Z) (es : list (Z * Z)) :
  ∃ t, String.concat ", " (show_pair <$> e :: es) =
       pretty e.1 +:+ ": " +:+ pretty e.2 +:+ t ∧
       starts_delim t = true ∧
       (es = [] → t = "") ∧
       (es ≠ [] → t = ", " +:+ String.concat ", " (show_pair <$> es)).
Proof.
  destruct es as [|e' es].
  - exists "". split; [|done].
    rewrite <- show_pair_app, string_app_nil_r. done.
  - exists (", " +:+ String.concat ", " (show_pair <$> e' :: es)).
    split; [|done].
    rewrite <- show_pair_app. done.
Qed.

Lemma concat_show_inj (l1 l2 : list (Z * Z)) :
  String.concat ", " (show_pair <$> l1) =
    String.concat ", " (show_pair <$> l2) →
  l1 = l2.
Proof.
  intros Heq.
  assert (length l1 = length l2) as Hlen.
  { apply (f_equal count_colon) in Heq. by rewrite !count_colon_concat in Heq. }
  revert l2 Heq Hlen.
  induction l1 as [|[k1 v1] l1 IH]; intros [|[k2 v2] l2] Heq Hlen;
    try done.
  destruct (concat_show_cons (k1, v1) l1) as (t1 & E1 & Ht1 & Hnil1 & Hcons1).
  destruct (concat_show_cons (k2, v2) l2) as (t2 & E2 & Ht2 & Hnil2 & Hcons2).
  rewrite E1, E2 in Heq. cbn [fst snd] in Heq.
  apply split_at_delim in Heq as [Hk Heq];
    [|apply no_delim_pretty|apply no_delim_pretty|done|done].
  apply (inj pretty) in Hk as ->.
  injection Heq as Heq.
  change (pretty v1 +:+ t1 = pretty v2 +:+ t2) in Heq.
  apply split_at_delim in Heq as [Hv Heq];
    [|apply no_delim_pretty|apply no_delim_pretty|done|done].
  apply (inj pretty) in Hv as ->.
  f_equal.
  destruct l1 as [|e1 l1], l2 as [|e2 l2]; try done.
  apply IH; [|simpl in Hlen |- *; lia].
  rewrite Hcons1, Hcons2 in Heq by done.
  rewrite !string_app_cons in Heq. by injection Heq.
Qed.

(** X11: [toString] loses nothing: two stores print alike only if they are the
    same store, so the keys and values can be read back off the string; in
    particular the empty string is returned for the empty store only. *)
Theorem toString_determines_store (m1 m2 : gmap Z Z) :
  (outcome (toString m1) = outcome (toString m2) ↔ m1 = m2) ∧
  (outcome (toString m1) = Normal "" ↔ m1 = new).
Proof.
  assert (∀ m m' : gmap Z Z,
            outcome (toString m) = outcome (toString m') → m = m') as Hinj.
  { intros m m'. rewrite !toString_run. cbn [outcome]. intros [= Heq].
    apply concat_show_inj in Heq.
    apply map_eq. intros k. apply option_eq. intros v.
    by rewrite <- !elem_of_entries, Heq. }
  split; split.
  - apply Hinj.
  - by intros ->.
  - intros Hempty. apply Hinj. by rewrite Hempty.
  - by intros ->.
Qed.

(** X12: once a valid call has been made, [toString] never returns the empty
    string again, whatever calls follow (valid or throwing): every call
    stores at least the key [from], and nothing removes it, not even
    setting the range to 0. *)
Theorem rendering_never_empty_again
    (m : gmap Z Z) (c : call) (cs : list call) :
  valid c = true →
  let m' := segments (perform_all cs (segments (perform c m))) in
  m' ≠ ∅ ∧
  outcome (toString m') ≠ Normal "" ∧
  ∃ from to, bounds c = Some (from, to) ∧ from ∈ (entries m').*1.
Proof.
  intros Hv m'.
  destruct (valid_has_bounds c Hv) as (from & to & Hb).
  pose proof (valid_bounds_le c from to Hv Hb) as Hle.
  assert (is_Some (m' !! from)) as Hfrom.
  { apply perform_all_is_Some. by apply (perform_first c from to). }
  assert (m' ≠ ∅) as Hne.
  { intros Hempty. rewrite Hempty, lookup_empty in Hfrom. by destruct Hfrom. }
  split; [done|]. split.
  - intros Hout. apply Hne, map_size_empty_inv.
    by rewrite (toString_size new m').
  - exists from, to. split; [done|].
    by rewrite entries_keys, elem_of_sortedKeys.
Qed.

Lemma rendering_never_empty_again_witness :
  valid (CallSet (Int 1) (Int 2) 0) = true ∧
  let m' := segments (perform_all [CallAdd NonInt (Int 3) 1]
                        (segments (perform (CallSet (Int 1) (Int 2) 0) new))) in
  m' ≠ ∅ ∧
  outcome (toString m') ≠ Normal "" ∧
  ∃ from to,
    bounds (CallSet (Int 1) (Int 2) 0) = Some (from, to) ∧
    from ∈ (entries m').*1.
Proof.
  split; [reflexivity|].
  apply (rendering_never_empty_again new (CallSet (Int 1) (Int 2) 0)
           [CallAdd NonInt (Int 3) 1]).
  reflexivity.
Defined.
